(** * Block archive of go-genesis: record framing, reverse locator, catch-up writer

    Shallow embedding of [packages/daemons/creating_blockchain.go].

    - Bytes are [Byte.byte]; Go's [int64] values are [Z].  The sizes and
      offsets of the codec and of the locator stay far below 2^63 (sizes are
      read from [WordSize] = 5 bytes), so nothing wraps around there.
    - A Go call returning [(T, error)] is a [result T]; besides returning, a
      call can end the process ([logger.Fatal]) or panic (nil dereference,
      slice out of range).
    - The file handle is explicit state: offset, plus the log of the buffers
      allocated with [make]. *)

From Stdlib Require Import ZArith List Lia Bool.
From Stdlib Require Import Strings.Byte.
Import ListNotations.
Local Open Scope Z_scope.

(** ** Bytes *)

Definition Z_of_byte (b : byte) : Z := Z.of_N (Byte.to_N b).

Definition byte_of_Z (z : Z) : byte :=
  match Byte.of_N (Z.to_N (z mod 256)) with
  | Some b => b
  | None => x00
  end.

(** ** Package [converter] (its sources are not at hand) *)

Module converter.

(** Modelled from the spec: [converter.BinToDec] is absent from the sources;
    section 4.1 says a FIXED(W) field encodes "an unsigned big-endian
    integer". *)
Fixpoint BinToDec_from (acc : Z) (bin : list byte) : Z :=
  match bin with
  | [] => acc
  | b :: rest => BinToDec_from (acc * 256 + Z_of_byte b) rest
  end.

(** Modelled from the spec: [converter.BinToDec], the value of a big-endian
    field (section 4.1). *)
Definition BinToDec (bin : list byte) : Z := BinToDec_from 0 bin.

(** Modelled from the spec: [converter.DecToBin] is absent from the sources;
    section 4.1: a field of fixed width [sizeBytes] holding the value as an
    unsigned big-endian integer.  The field always has [sizeBytes] bytes; a
    value that does not fit keeps its low-order bytes. *)
Fixpoint DecToBin (dec : Z) (sizeBytes : nat) : list byte :=
  match sizeBytes with
  | O => []
  | S k => byte_of_Z (dec / 256 ^ Z.of_nat k) :: DecToBin dec k
  end.

(** Modelled from the spec: the "count of length-bytes" of section 4.1, the
    number of bytes of the shortest big-endian writing of [n]. *)
Definition byteLen (n : Z) : nat :=
  if n <=? 0 then O else S (Z.to_nat (Z.log2 n / 8)).

(** Modelled from the spec: [converter.EncodeLength] is absent from the
    sources; section 4.1: "a 1-byte count of length-bytes followed by that
    many big-endian bytes". *)
Definition EncodeLength (length : Z) : list byte :=
  byte_of_Z (Z.of_nat (byteLen length)) :: DecToBin length (byteLen length).

(** Modelled from the spec: [converter.EncodeLengthPlusData] is absent from
    the sources; section 4.1: the length prefix "immediately followed by
    payload". *)
Definition EncodeLengthPlusData (data : list byte) : list byte :=
  EncodeLength (Z.of_nat (length data)) ++ data.

(** Modelled from the spec: [converter.DecodeLength] is absent from the
    sources; it reads the prefix written by [EncodeLength] and moves the
    slice behind it ("DecodeLength moves the pointer to the data field").
    [None] is the error return: the count byte or the announced length bytes
    are missing. *)
Definition DecodeLength (buf : list byte) : option (Z * list byte) :=
  match buf with
  | [] => None
  | c :: rest =>
      let k := Z.to_nat (Z_of_byte c) in
      if (length rest <? k)%nat then None
      else Some (BinToDec (firstn k rest), skipn k rest)
  end.

End converter.

(** ** Outcomes of a Go call *)

Inductive error : Type :=
| ErrOpen            (* os.Open / os.OpenFile failed, other than "not exist" *)
| ErrSeek            (* file.Seek failed (I/O fault or negative offset) *)
| ErrRead            (* read system call failed *)
| ErrStat            (* file.Stat failed *)
| EOF                (* io.EOF *)
| ErrUnexpectedEOF   (* io.ErrUnexpectedEOF *)
| ErrWrite           (* file.Write failed *)
| ErrEmptyFile       (* "empty blockchain file" *)
| ErrSizeExceeded    (* "size > conts.MAX_BLOCK_SIZE" *)
| ErrDecodeLength    (* converter.DecodeLength failed *)
| ErrBadLength       (* "bad length" *)
| ErrDB.             (* database error *)

(** [Ok v] is [return v, nil]; [Err e] is [return <zero value>, e] (errors
    are taken up to the wrapping of [utils.ErrInfo]); [Exit] is the end of the
    process by [logger.Fatal], which logs and calls [os.Exit(1)]; [Panic] is a
    run-time panic. *)
Inductive result (A : Type) : Type :=
| Ok (v : A)
| Err (e : error)
| Exit
| Panic.

Arguments Ok {A} v.
Arguments Err {A} e.
Arguments Exit {A}.
Arguments Panic {A}.

(** ** Files *)

(** Faults of the file system during one operation.  [write_fault = Some (k, p)]:
    the first [k] calls of [Write] succeed, the next one puts only the first
    [p] bytes of its buffer on disk and returns an error. *)
Record faults : Type := mkFaults {
  open_fails : bool;
  stat_fails : bool;
  seek_fails : bool;
  read_fails : bool;
  write_fault : option (nat * nat)
}.

Definition no_faults : faults := mkFaults false false false false None.

(** The archive path: [None] when no file exists there. *)
Record disk : Type := mkDisk {
  archive : option (list byte);
  dev : faults
}.

(** An open file: its bytes, the offset of the next read, the faults of the
    device, and the sizes of the buffers allocated with [make] so far. *)
Record handle : Type := mkHandle {
  content : list byte;
  offset : Z;
  hdev : faults;
  made : list Z
}.

Definition M (A : Type) : Type := handle -> result A * handle.

Definition ret {A : Type} (v : A) : M A := fun h => (Ok v, h).

Definition bind {A B : Type} (m : M A) (f : A -> M B) : M B :=
  fun h =>
    match m h with
    | (Ok v, h') => f v h'
    | (Err e, h') => (Err e, h')
    | (Exit, h') => (Exit, h')
    | (Panic, h') => (Panic, h')
    end.

Definition fail {A : Type} (e : error) : M A := fun h => (Err e, h).
Definition fatal {A : Type} : M A := fun h => (Exit, h).
Definition panic {A : Type} : M A := fun h => (Panic, h).
Definition lift {A : Type} (r : result A) : M A := fun h => (r, h).

Notation "x <- m ;; k" := (bind m (fun x => k))
  (at level 61, m at next level, right associativity).
Notation "m ;;; k" := (bind m (fun _ => k))
  (at level 61, right associativity).

(** [make([]byte, n)] *)
Definition make (n : Z) : M unit :=
  fun h => (Ok tt, mkHandle (content h) (offset h) (hdev h) (made h ++ [n])).

(** The bytes from the current offset to the end of the file. *)
Definition remaining (h : handle) : list byte :=
  skipn (Z.to_nat (offset h)) (content h).

Definition advance (h : handle) (n : nat) : handle :=
  mkHandle (content h) (offset h + Z.of_nat n) (hdev h) (made h).

(** [file.Read(buf)] with [len(buf) = n] on a regular file: one read of at most
    [n] bytes; [io.EOF] when nothing is left.  The result is the whole buffer:
    the bytes read, then the zero bytes [make] put there. *)
Definition Read (n : nat) : M (list byte) :=
  fun h =>
    if read_fails (hdev h) then (Err ErrRead, h)
    else
      match n, remaining h with
      | O, _ => (Ok [], h)
      | _, [] => (Err EOF, h)
      | _, rest =>
          let got := firstn n rest in
          (Ok (got ++ repeat x00 (n - length got)), advance h (length got))
      end.

(** [io.ReadFull(r, buf)] with [len(buf) = n]: exactly [n] bytes, [io.EOF] when
    none could be read, [io.ErrUnexpectedEOF] when fewer than [n]. *)
Definition ReadFull (n : nat) : M (list byte) :=
  fun h =>
    if read_fails (hdev h) then (Err ErrRead, h)
    else
      let rest := remaining h in
      if (n =? 0)%nat then (Ok [], h)
      else if (length rest =? 0)%nat then (Err EOF, h)
      else if (length rest <? n)%nat then (Err ErrUnexpectedEOF, advance h (length rest))
      else (Ok (firstn n rest), advance h n).

(** [file.Seek(off, os.SEEK_END)]: an offset before the start of the file is an
    error. *)
Definition SeekEnd (off : Z) : M unit :=
  fun h =>
    let target := Z.of_nat (length (content h)) + off in
    if seek_fails (hdev h) then (Err ErrSeek, h)
    else if target <? 0 then (Err ErrSeek, h)
    else (Ok tt, mkHandle (content h) target (hdev h) (made h)).

(** [file.Stat()], of which the code uses [Size()]. *)
Definition Stat : M Z :=
  fun h =>
    if stat_fails (hdev h) then (Err ErrStat, h)
    else (Ok (Z.of_nat (length (content h))), h).

(** [m], with its error handed to [handler] instead of being returned. *)
Definition on_error {A : Type} (m : M A) (handler : error -> M A) : M A :=
  fun h =>
    match m h with
    | (Err e, h') => handler e h'
    | other => other
    end.

(** ** The record codec *)

Definition WordSize : nat := 5.

Record blockData : Type := mkBlock {
  ID : Z;
  Data : list byte
}.

Definition marshallFileBlock (b : blockData) : list byte :=
  let data := converter.DecToBin (ID b) WordSize
              ++ converter.EncodeLengthPlusData (Data b) in
  let sizeAndData := converter.DecToBin (Z.of_nat (length data)) WordSize ++ data in
  let blockBin := sizeAndData
                  ++ converter.DecToBin (Z.of_nat (length sizeAndData)) WordSize in
  blockBin.

(** [buff[:WordSize]] panics on a slice shorter than [WordSize] (the buffers
    passed here are made with [make], so capacity and length agree).
    [blockDataLen] is an [int64] in the source; the model agrees with it for
    every decoded length below 2^63. *)
Definition unmarshalBlockData (buff : list byte) : result blockData :=
  if (length buff <? WordSize)%nat then Panic
  else
    let blockID := converter.BinToDec (firstn WordSize buff) in
    let buff := skipn WordSize buff in
    match converter.DecodeLength buff with
    | None => Err ErrDecodeLength
    | Some (blockDataLen, buff) =>
        if blockDataLen >? Z.of_nat (length buff) then Err ErrBadLength
        else if blockDataLen <? 0 then Panic
        else Ok (mkBlock blockID (firstn (Z.to_nat blockDataLen) buff))
    end.

(** ** The ledger (package [model], its sources are not at hand) *)

(** Modelled from the spec: the ledger is absent from the sources; section 1
    calls it "an append-only ledger of sequentially numbered blocks" and
    section 6 gives its interface.  [chain] holds the payloads of the blocks
    1, 2, 3, ... in this order; [BlockID] is the id the info block reports
    (the current chain height); the two flags make the queries fail. *)
Record ledger : Type := mkLedger {
  chain : list (list byte);
  BlockID : Z;
  info_fails : bool;
  query_fails : bool
}.

(** Modelled from the spec: the blocks are "sequentially numbered" (section
    1); the rows of the block table are the payloads numbered from [first]. *)
Fixpoint numbered (first : Z) (payloads : list (list byte)) : list blockData :=
  match payloads with
  | [] => []
  | p :: rest => mkBlock first p :: numbered (first + 1) rest
  end.

(** Modelled from the spec: [infoBlock.Get] is absent from the sources;
    section 6: [get_chain_height() -> u64].  [None] is the error return. *)
Definition infoBlock_Get (db : ledger) : option Z :=
  if info_fails db then None else Some (BlockID db).

(** Modelled from the spec: [model.GetBlockchain] is absent from the sources;
    section 6: [get_blocks(from_id_exclusive, to_id_inclusive) -> ordered
    sequence of (id, payload)].  [None] is the error return. *)
Definition GetBlockchain (db : ledger) (startBlockID endBlockID : Z)
  : option (list blockData) :=
  if query_fails db then None
  else Some (filter (fun b => (startBlockID <? ID b) && (ID b <=? endBlockID))
                    (numbered 1 (chain db))).

Section Archive.

(** [syspar.GetMaxBlockSize()] *)
Variable MaxBlockSize : Z.

(** [readBlock]; [None] is the [nil, nil] return. *)
Definition readBlock : M (option blockData) :=
  make (Z.of_nat WordSize) ;;;
  buf <- ReadFull WordSize ;;
  let size := converter.BinToDec buf in
  if size >? MaxBlockSize then fail ErrSizeExceeded
  else if size =? 0 then ret None
  else
    make (size + Z.of_nat WordSize) ;;;
    dataBinary <- Read (Z.to_nat (size + Z.of_nat WordSize)) ;;
    block <- lift (unmarshalBlockData dataBinary) ;;
    ret (Some block).

(** The part of [getLastBlockID] that runs on the open file. *)
Definition lastBlockOfFile : M Z :=
  fsize <- on_error Stat (fun _ => fatal) ;;
  if fsize =? 0 then fail ErrEmptyFile
  else
    SeekEnd (- Z.of_nat WordSize) ;;;
    make (Z.of_nat WordSize) ;;;
    buf <- Read WordSize ;;
    let size := converter.BinToDec buf in
    if size >? MaxBlockSize then fail ErrSizeExceeded
    else
      SeekEnd (- (size + Z.of_nat WordSize)) ;;;
      block <- readBlock ;;
      match block with
      | None => panic            (* block.ID on a nil pointer *)
      | Some b => ret (ID b)
      end.

Definition open (d : disk) (c : list byte) : handle :=
  mkHandle c 0 (dev d) [].

(** [getLastBlockID]: the outcome and the buffers allocated on the way. *)
Definition getLastBlockID_run (d : disk) : result Z * list Z :=
  match archive d with
  | None => (Ok 0, [])               (* os.IsNotExist(err) *)
  | Some c =>
      if open_fails (dev d) then (Err ErrOpen, [])
      else let (r, h) := lastBlockOfFile (open d c) in (r, made h)
  end.

Definition getLastBlockID (d : disk) : result Z := fst (getLastBlockID_run d).

(** *** The catch-up writer *)

(** [file.Write(buff)] on the file opened with [O_APPEND]: the outcome of
    the call and the disk after it. *)
Definition Write (d : disk) (buff : list byte) : result unit * disk :=
  let c := match archive d with Some c => c | None => [] end in
  let f := dev d in
  match write_fault f with
  | None => (Ok tt, mkDisk (Some (c ++ buff)) f)
  | Some (O, p) => (Err ErrWrite, mkDisk (Some (c ++ firstn p buff)) f)
  | Some (S k, p) =>
      (Ok tt,
       mkDisk (Some (c ++ buff))
              (mkFaults (open_fails f) (stat_fails f) (seek_fails f)
                        (read_fails f) (Some (k, p))))
  end.

(** The loop [for _, b := range blocks] of [writeNextBlocks]. *)
Fixpoint writeBlocks (d : disk) (blocks : list blockData) : result unit * disk :=
  match blocks with
  | [] => (Ok tt, d)
  | b :: rest =>
      let buff := marshallFileBlock b in
      match Write d buff with
      | (Ok _, d') => writeBlocks d' rest
      | failed => failed
      end
  end.

(** [os.OpenFile(fileName, O_CREATE|O_APPEND|O_WRONLY, 0600)]: a missing
    file is created, empty. *)
Definition OpenFile (d : disk) : disk :=
  mkDisk (Some (match archive d with Some c => c | None => [] end)) (dev d).

(** [writeNextBlocks]: the outcome and the disk after the call.  The [int64]
    subtraction and addition on [curBlockID], [minToSave] and
    [lastSavedBlockID] are taken where they do not wrap around. *)
Definition writeNextBlocks (d : disk) (db : ledger) (minToSave : Z)
  : result unit * disk :=
  match getLastBlockID d with
  | Ok lastSavedBlockID =>
      match infoBlock_Get db with
      | None => (Err ErrDB, d)
      | Some curBlockID =>
          if curBlockID - minToSave <? lastSavedBlockID then (Ok tt, d)
          else
            match GetBlockchain db lastSavedBlockID (lastSavedBlockID + minToSave) with
            | None => (Err ErrDB, d)
            | Some blocks =>
                if open_fails (dev d) then (Err ErrOpen, d)
                else writeBlocks (OpenFile d) blocks
            end
      end
  | Err e => (Err e, d)
  | Exit => (Exit, d)
  | Panic => (Panic, d)
  end.

End Archive.

(** ** Vocabulary of the statements *)

(** A value that a [WordSize]-byte field can hold. *)
Definition representable (z : Z) : Prop := 0 <= z < 256 ^ Z.of_nat WordSize.

(** The bytes between the two size fields: [data] in [marshallFileBlock]. *)
Definition frameBody (b : blockData) : list byte :=
  converter.DecToBin (ID b) WordSize ++ converter.EncodeLengthPlusData (Data b).

(** [len(data)] in [marshallFileBlock]: id, length prefix and payload. *)
Definition innerSize (b : blockData) : Z := Z.of_nat (length (frameBody b)).

(** The leading and the trailing [WordSize]-byte field of a frame. *)
Definition leadingField (frame : list byte) : list byte := firstn WordSize frame.
Definition trailingField (frame : list byte) : list byte :=
  skipn (length frame - WordSize) frame.

(** A disk without faults on which the archive has the given bytes. *)
Definition disk_with (c : list byte) : disk := mkDisk (Some c) no_faults.
Definition disk_without : disk := mkDisk None no_faults.

(** An open reader at the start of the given bytes. *)
Definition reader_of (c : list byte) : handle := mkHandle c 0 no_faults [].

(** The archive made of the frames of the given records, in order. *)
Definition frames (records : list blockData) : list byte :=
  concat (map marshallFileBlock records).

(** The bytes at the archive path; none when no file exists. *)
Definition bytes_of (d : disk) : list byte :=
  match archive d with Some c => c | None => [] end.

(** The ids of the records rise strictly, starting above [prev]. *)
Fixpoint increasing (prev : Z) (records : list blockData) : Prop :=
  match records with
  | [] => True
  | b :: rest => prev < ID b /\ increasing (ID b) rest
  end.

(** The id of the last record; [default] when there is none. *)
Fixpoint lastID (default : Z) (records : list blockData) : Z :=
  match records with
  | [] => default
  | b :: rest => lastID (ID b) rest
  end.

(** A record that the locator can find again when its frame ends the file. *)
Definition fits (MaxBlockSize : Z) (b : blockData) : Prop :=
  representable (ID b)
  /\ representable (innerSize b + Z.of_nat WordSize)
  /\ innerSize b + Z.of_nat WordSize <= MaxBlockSize.

(** The archive path holds exactly the frames of [records] (no file stands
    for no records), on a device without faults. *)
Definition archived (d : disk) (records : list blockData) : Prop :=
  dev d = no_faults
  /\ match archive d with
     | None => records = []
     | Some c => c = frames records
     end.

(** What [file.Read] leaves in a buffer of [n] bytes made by [make] when
    [rest] is what the file still holds: the bytes read, then zeros. *)
Definition padded (n : nat) (rest : list byte) : list byte :=
  firstn n rest ++ repeat x00 (n - length (firstn n rest)).

(** [n] calls of [readBlock] in a row on the same reader, stopping at the
    first absent record. *)
Fixpoint readBlocks (MaxBlockSize : Z) (n : nat) : M (list blockData) :=
  match n with
  | O => ret []
  | S k =>
      block <- readBlock MaxBlockSize ;;
      match block with
      | None => ret []
      | Some b => rest <- readBlocks MaxBlockSize k ;; ret (b :: rest)
      end
  end.

(** The first [k] blocks of the ledger, as records. *)
Definition ledger_prefix (db : ledger) (k : nat) : list blockData :=
  numbered 1 (firstn k (chain db)).

(** A record that [readBlock] accepts. *)
Definition readable (MaxBlockSize : Z) (b : blockData) : Prop :=
  representable (ID b) /\ representable (innerSize b)
  /\ innerSize b <= MaxBlockSize.

(** Two readers that show the same bytes ahead on the same device. *)
Definition same_view (h1 h2 : handle) : Prop :=
  hdev h1 = hdev h2 /\ remaining h1 = remaining h2
  /\ 0 <= offset h1 /\ 0 <= offset h2.

(** A computation whose outcome depends only on the bytes ahead of the
    reader, and which leaves two such readers with the same bytes ahead. *)
Definition local {A : Type} (m : M A) : Prop :=
  forall h1 h2, same_view h1 h2 ->
                fst (m h1) = fst (m h2) /\ same_view (snd (m h1)) (snd (m h2)).

(** Side conditions of a seek on a device without faults. *)
Ltac seek_side :=
  unfold advance;
  repeat match goal with h := mkHandle _ _ _ _ |- _ => subst h end;
  cbn [content hdev seek_fails no_faults made offset];
  first [reflexivity | unfold WordSize in *; lia].

(** * Properties *)

(** ** The converter *)

Lemma Z_of_byte_range (b : byte) : 0 <= Z_of_byte b < 256.
Proof.
  unfold Z_of_byte. pose proof (Byte.to_N_bounded b). lia.
Qed.

Lemma Z_of_byte_of_Z (z : Z) : Z_of_byte (byte_of_Z z) = z mod 256.
Proof.
  unfold Z_of_byte, byte_of_Z.
  pose proof (Z.mod_pos_bound z 256 ltac:(lia)) as Hz.
  destruct (Byte.of_N (Z.to_N (z mod 256))) as [b|] eqn:E.
  - apply Byte.to_of_N in E. rewrite E. lia.
  - apply Byte.of_N_None_iff in E. lia.
Qed.

Lemma byte_of_Z_of_byte (b : byte) : byte_of_Z (Z_of_byte b) = b.
Proof.
  unfold byte_of_Z. pose proof (Z_of_byte_range b) as Hb.
  rewrite Z.mod_small by lia. unfold Z_of_byte.
  rewrite N2Z.id, Byte.of_to_N. reflexivity.
Qed.

Lemma DecToBin_length (n : Z) (k : nat) : length (converter.DecToBin n k) = k.
Proof.
  induction k as [|k IH]; simpl; [reflexivity | now rewrite IH].
Qed.

Lemma BinToDec_from_app (acc : Z) (l1 l2 : list byte) :
  converter.BinToDec_from acc (l1 ++ l2)
  = converter.BinToDec_from (converter.BinToDec_from acc l1) l2.
Proof.
  revert acc. induction l1 as [|b l1 IH]; intros acc; simpl; [reflexivity | apply IH].
Qed.

Lemma BinToDec_from_DecToBin (n : Z) (k : nat) (acc : Z) :
  converter.BinToDec_from acc (converter.DecToBin n k)
  = acc * 256 ^ Z.of_nat k + n mod 256 ^ Z.of_nat k.
Proof.
  revert acc. induction k as [|k IH]; intros acc.
  - simpl. rewrite Z.mod_1_r. lia.
  - cbn [converter.DecToBin converter.BinToDec_from].
    rewrite IH, Z_of_byte_of_Z.
    rewrite Nat2Z.inj_succ, Z.pow_succ_r by lia.
    set (p := 256 ^ Z.of_nat k).
    assert (Hp : 0 < p) by (apply Z.pow_pos_nonneg; lia).
    rewrite (Z.mul_comm 256 p).
    rewrite (Z.rem_mul_r n p 256) by lia.
    lia.
Qed.

Lemma BinToDec_DecToBin (n : Z) (k : nat) :
  0 <= n < 256 ^ Z.of_nat k ->
  converter.BinToDec (converter.DecToBin n k) = n.
Proof.
  intros Hn. unfold converter.BinToDec.
  rewrite BinToDec_from_DecToBin, Z.mod_small by assumption. lia.
Qed.

Lemma pow256 (k : nat) : 256 ^ Z.of_nat k = 2 ^ (8 * Z.of_nat k).
Proof.
  change 256 with (2 ^ 8). rewrite <- Z.pow_mul_r by lia. reflexivity.
Qed.

Lemma byteLen_fits (n : Z) :
  0 <= n -> n < 256 ^ Z.of_nat (converter.byteLen n).
Proof.
  intros Hn. unfold converter.byteLen.
  destruct (Z.leb_spec n 0) as [H0|H0].
  - simpl. lia.
  - rewrite pow256. apply Z.log2_lt_pow2; [assumption|].
    pose proof (Z.log2_nonneg n) as Hl.
    rewrite Nat2Z.inj_succ, Z2Nat.id by (apply Z.div_pos; lia).
    pose proof (Z.mul_succ_div_gt (Z.log2 n) 8 ltac:(lia)). lia.
Qed.

Lemma byteLen_word (n : Z) :
  n < 256 ^ Z.of_nat WordSize -> (converter.byteLen n <= WordSize)%nat.
Proof.
  intros Hn. unfold converter.byteLen.
  destruct (Z.leb_spec n 0) as [H0|H0]; [unfold WordSize; lia|].
  assert (Hl : Z.log2 n < 40).
  { apply Z.log2_lt_pow2; [assumption|]. exact Hn. }
  pose proof (Z.log2_nonneg n) as Hl0.
  assert (Z.log2 n / 8 < 5) by (apply Z.div_lt_upper_bound; lia).
  assert (0 <= Z.log2 n / 8) by (apply Z.div_pos; lia).
  unfold WordSize. lia.
Qed.

Lemma EncodeLength_length (n : Z) :
  length (converter.EncodeLength n) = S (converter.byteLen n).
Proof.
  unfold converter.EncodeLength. simpl. now rewrite DecToBin_length.
Qed.

Lemma DecodeLength_EncodeLength (n : Z) (rest : list byte) :
  0 <= n -> (converter.byteLen n < 256)%nat ->
  converter.DecodeLength (converter.EncodeLength n ++ rest) = Some (n, rest).
Proof.
  intros Hn Hk. unfold converter.EncodeLength, converter.DecodeLength.
  cbn [app]. rewrite Z_of_byte_of_Z, Z.mod_small, Nat2Z.id by lia.
  set (k := converter.byteLen n).
  assert (Hlen : length (converter.DecToBin n k) = k) by apply DecToBin_length.
  destruct (Nat.ltb_spec (length (converter.DecToBin n k ++ rest)) k) as [Hlt|_].
  - rewrite length_app in Hlt. lia.
  - rewrite firstn_app, skipn_app, Hlen, Nat.sub_diag. simpl.
    rewrite <- Hlen at 1 3. rewrite firstn_all, skipn_all, !app_nil_r. simpl.
    rewrite BinToDec_DecToBin; [reflexivity|].
    split; [assumption | apply byteLen_fits; assumption].
Qed.

(** ** Lists *)

Lemma firstn_exact {A : Type} (n : nat) (a rest : list A) :
  length a = n -> firstn n (a ++ rest) = a.
Proof.
  intros <-. rewrite firstn_app, Nat.sub_diag, firstn_all. simpl.
  apply app_nil_r.
Qed.

Lemma skipn_exact {A : Type} (n : nat) (a rest : list A) :
  length a = n -> skipn n (a ++ rest) = rest.
Proof.
  intros <-. rewrite skipn_app, Nat.sub_diag, skipn_all. reflexivity.
Qed.

(** ** Reading from a handle *)

Lemma remaining_advance (h : handle) (n : nat) :
  0 <= offset h -> remaining (advance h n) = skipn n (remaining h).
Proof.
  intros Ho. unfold remaining, advance. simpl.
  rewrite skipn_skipn. f_equal. lia.
Qed.

Lemma ReadFull_exact (n : nat) (h : handle) (a rest : list byte) :
  read_fails (hdev h) = false -> remaining h = a ++ rest ->
  length a = n -> n <> O ->
  ReadFull n h = (Ok a, advance h n).
Proof.
  intros Hf Hr Ha Hn. unfold ReadFull. rewrite Hf, Hr.
  destruct (Nat.eqb_spec n 0) as [|_]; [contradiction|].
  rewrite length_app.
  destruct (Nat.eqb_spec (length a + length rest) 0) as [|_]; [lia|].
  destruct (Nat.ltb_spec (length a + length rest) n) as [|_]; [lia|].
  now rewrite firstn_exact by exact Ha.
Qed.

Lemma Read_exact (n : nat) (h : handle) (a rest : list byte) :
  read_fails (hdev h) = false -> remaining h = a ++ rest ->
  length a = n -> n <> O ->
  Read n h = (Ok a, advance h n).
Proof.
  intros Hf Hr Ha Hn. unfold Read. rewrite Hf, Hr.
  destruct n as [|n]; [contradiction|].
  destruct (a ++ rest) as [|x l] eqn:E.
  - destruct a; simpl in *; discriminate.
  - rewrite <- E, firstn_exact by exact Ha.
    rewrite Ha, Nat.sub_diag. simpl. now rewrite app_nil_r.
Qed.

(** ** The codec *)

Lemma marshallFileBlock_layout (b : blockData) :
  marshallFileBlock b
  = converter.DecToBin (innerSize b) WordSize
    ++ frameBody b
    ++ converter.DecToBin (innerSize b + Z.of_nat WordSize) WordSize.
Proof.
  unfold marshallFileBlock, innerSize, frameBody.
  rewrite <- app_assoc. do 2 f_equal.
  rewrite length_app, DecToBin_length. f_equal. lia.
Qed.

Lemma marshallFileBlock_length (b : blockData) :
  Z.of_nat (length (marshallFileBlock b)) = innerSize b + 2 * Z.of_nat WordSize.
Proof.
  rewrite marshallFileBlock_layout, !length_app, !DecToBin_length.
  unfold innerSize. lia.
Qed.

Lemma innerSize_eq (b : blockData) :
  innerSize b
  = Z.of_nat WordSize + Z.of_nat (S (converter.byteLen (Z.of_nat (length (Data b)))))
    + Z.of_nat (length (Data b)).
Proof.
  unfold innerSize, frameBody, converter.EncodeLengthPlusData.
  rewrite !length_app, DecToBin_length, EncodeLength_length. lia.
Qed.

Lemma payload_prefix_ok (b : blockData) :
  representable (innerSize b) ->
  (converter.byteLen (Z.of_nat (length (Data b))) < 256)%nat.
Proof.
  intros [_ H]. rewrite innerSize_eq in H.
  assert (Hw : (converter.byteLen (Z.of_nat (length (Data b))) <= WordSize)%nat).
  { apply byteLen_word. lia. }
  unfold WordSize in Hw. lia.
Qed.

Lemma unmarshalBlockData_frameBody (b : blockData) (tail : list byte) :
  representable (ID b) -> representable (innerSize b) ->
  unmarshalBlockData (frameBody b ++ tail) = Ok b.
Proof.
  intros Hid Hsz. unfold unmarshalBlockData, frameBody.
  set (idw := converter.DecToBin (ID b) WordSize).
  assert (Hidw : length idw = WordSize) by apply DecToBin_length.
  rewrite <- !app_assoc.
  destruct (Nat.ltb_spec (length (idw ++ converter.EncodeLengthPlusData (Data b) ++ tail))
                         WordSize) as [Hlt|_].
  { rewrite length_app in Hlt. lia. }
  rewrite (firstn_exact WordSize idw) by exact Hidw.
  rewrite (skipn_exact WordSize idw) by exact Hidw.
  unfold converter.EncodeLengthPlusData.
  rewrite <- app_assoc, DecodeLength_EncodeLength
    by (try lia; apply payload_prefix_ok; assumption).
  rewrite length_app.
  destruct (Z.gtb_spec (Z.of_nat (length (Data b)))
                       (Z.of_nat (length (Data b) + length tail))) as [Hgt|_]; [lia|].
  destruct (Z.ltb_spec (Z.of_nat (length (Data b))) 0) as [Hneg|_]; [lia|].
  rewrite Nat2Z.id, firstn_exact by reflexivity. subst idw. rewrite BinToDec_DecToBin by exact Hid.
  destruct b; reflexivity.
Qed.

Lemma innerSize_pos (b : blockData) : Z.of_nat WordSize < innerSize b.
Proof. rewrite innerSize_eq. lia. Qed.

(** Reading one block where a frame starts: the record comes back, and two
    buffers are made, one for the size field and one for the rest of the
    frame. *)
Lemma readBlock_frame (MaxBlockSize : Z) (h : handle) (b : blockData)
      (tail : list byte) :
  read_fails (hdev h) = false -> 0 <= offset h ->
  remaining h = marshallFileBlock b ++ tail ->
  representable (ID b) -> representable (innerSize b) ->
  innerSize b <= MaxBlockSize ->
  exists h',
    readBlock MaxBlockSize h = (Ok (Some b), h')
    /\ made h' = made h ++ [Z.of_nat WordSize; innerSize b + Z.of_nat WordSize].
Proof.
  intros Hf Ho Hr Hid Hsz Hmax.
  rewrite marshallFileBlock_layout, <- !app_assoc in Hr.
  pose proof (innerSize_pos b) as Hpos.
  set (h1 := mkHandle (content h) (offset h) (hdev h) (made h ++ [Z.of_nat WordSize])).
  assert (R1 : ReadFull WordSize h1
               = (Ok (converter.DecToBin (innerSize b) WordSize), advance h1 WordSize)).
  { eapply ReadFull_exact; [exact Hf | exact Hr | apply DecToBin_length | discriminate]. }
  set (h2 := advance h1 WordSize) in *.
  set (h3 := mkHandle (content h2) (offset h2) (hdev h2)
                      (made h2 ++ [innerSize b + Z.of_nat WordSize])).
  assert (Hr3 : remaining h3
                = (frameBody b
                   ++ converter.DecToBin (innerSize b + Z.of_nat WordSize) WordSize)
                  ++ tail).
  { change (remaining h3) with (remaining (advance h1 WordSize)).
    rewrite remaining_advance by exact Ho.
    change (remaining h1) with (remaining h). rewrite Hr.
    rewrite skipn_exact by apply DecToBin_length. now rewrite <- app_assoc. }
  assert (R3 : Read (Z.to_nat (innerSize b + Z.of_nat WordSize)) h3
               = (Ok (frameBody b
                      ++ converter.DecToBin (innerSize b + Z.of_nat WordSize) WordSize),
                  advance h3 (Z.to_nat (innerSize b + Z.of_nat WordSize)))).
  { eapply Read_exact; [exact Hf | exact Hr3 | | lia].
    rewrite length_app, DecToBin_length. unfold innerSize. lia. }
  eexists. split.
  - unfold readBlock, bind. unfold make at 1. fold h1. rewrite R1.
    rewrite BinToDec_DecToBin by exact Hsz.
    destruct (Z.gtb_spec (innerSize b) MaxBlockSize) as [|_]; [lia|].
    destruct (Z.eqb_spec (innerSize b) 0) as [|_]; [lia|].
    unfold make. fold h3. rewrite R3.
    unfold lift. rewrite unmarshalBlockData_frameBody by assumption.
    unfold ret. reflexivity.
  - simpl. now rewrite <- app_assoc.
Qed.

Lemma remaining_at (h : handle) (a t : list byte) :
  content h = a ++ t -> offset h = Z.of_nat (length a) -> remaining h = t.
Proof.
  intros Hc Ho. unfold remaining. rewrite Hc, Ho, Nat2Z.id.
  now apply skipn_exact.
Qed.

Lemma SeekEnd_ok (off : Z) (h : handle) :
  seek_fails (hdev h) = false -> 0 <= Z.of_nat (length (content h)) + off ->
  SeekEnd off h
  = (Ok tt, mkHandle (content h) (Z.of_nat (length (content h)) + off)
                     (hdev h) (made h)).
Proof.
  intros Hf Ht. unfold SeekEnd. rewrite Hf.
  destruct (Z.ltb_spec (Z.of_nat (length (content h)) + off) 0); [lia | reflexivity].
Qed.

(** ** The reverse locator on an archive that ends with a frame *)

Lemma getLastBlockID_run_last_frame (MaxBlockSize : Z) (pre : list byte)
      (b : blockData) :
  representable (ID b) ->
  representable (innerSize b + Z.of_nat WordSize) ->
  innerSize b + Z.of_nat WordSize <= MaxBlockSize ->
  getLastBlockID_run MaxBlockSize (disk_with (pre ++ marshallFileBlock b))
  = (Ok (ID b),
     [Z.of_nat WordSize; Z.of_nat WordSize; innerSize b + Z.of_nat WordSize]).
Proof.
  intros Hid Hsz Hmax.
  pose proof (innerSize_pos b) as Hpos.
  assert (Hsz' : representable (innerSize b)) by (unfold representable in *; lia).
  set (c := pre ++ marshallFileBlock b).
  assert (Hlen : Z.of_nat (length c)
                 = Z.of_nat (length pre) + innerSize b + 2 * Z.of_nat WordSize).
  { subst c. rewrite length_app, Nat2Z.inj_add, marshallFileBlock_length. lia. }
  unfold getLastBlockID_run, disk_with. cbn [archive dev open_fails no_faults].
  unfold lastBlockOfFile, open. cbn [dev].
  unfold bind at 1. unfold on_error, Stat. cbn [hdev stat_fails no_faults content].
  destruct (Z.eqb_spec (Z.of_nat (length c)) 0) as [|_]; [lia|].
  unfold bind at 1. rewrite SeekEnd_ok by seek_side. cbn [content hdev made].
  unfold bind at 1. unfold make at 1. cbn [content offset hdev made app].
  set (h1 := mkHandle c (Z.of_nat (length c) + - Z.of_nat WordSize) no_faults
                      [Z.of_nat WordSize]).
  assert (R1 : Read WordSize h1
               = (Ok (converter.DecToBin (innerSize b + Z.of_nat WordSize) WordSize),
                  advance h1 WordSize)).
  { eapply (Read_exact _ _ _ []); [reflexivity | | apply DecToBin_length | discriminate].
    rewrite app_nil_r.
    apply (remaining_at h1 (pre ++ converter.DecToBin (innerSize b) WordSize
                                ++ frameBody b)).
    - cbn [content h1]. subst c. rewrite marshallFileBlock_layout.
      now rewrite <- !app_assoc.
    - cbn [offset h1]. rewrite Hlen, !length_app, DecToBin_length.
      unfold innerSize. lia. }
  unfold bind at 1. rewrite R1.
  rewrite BinToDec_DecToBin by exact Hsz.
  destruct (Z.gtb_spec (innerSize b + Z.of_nat WordSize) MaxBlockSize) as [|_]; [lia|].
  unfold bind at 1. rewrite SeekEnd_ok by seek_side.
  unfold advance. subst h1. cbn [content hdev made offset].
  unfold bind at 1.
  match goal with |- context [readBlock _ ?h] => set (h2 := h) end.
  destruct (readBlock_frame MaxBlockSize h2 b []) as [h' [R2 M2]];
    try assumption; try lia.
  - reflexivity.
  - cbn [offset h2]. lia.
  - rewrite app_nil_r. apply (remaining_at h2 pre); [reflexivity|].
    cbn [offset h2]. lia.
  - rewrite R2. unfold ret. rewrite M2. reflexivity.
Qed.

Lemma leadingField_frame (b : blockData) :
  leadingField (marshallFileBlock b) = converter.DecToBin (innerSize b) WordSize.
Proof.
  unfold leadingField. rewrite marshallFileBlock_layout.
  apply firstn_exact, DecToBin_length.
Qed.

Lemma trailingField_app (a t : list byte) :
  length t = WordSize -> trailingField (a ++ t) = t.
Proof.
  intros Ht. unfold trailingField. rewrite length_app, Ht, Nat.add_sub.
  now apply skipn_exact.
Qed.

Lemma trailingField_frame (pre : list byte) (b : blockData) :
  trailingField (pre ++ marshallFileBlock b)
  = converter.DecToBin (innerSize b + Z.of_nat WordSize) WordSize.
Proof.
  rewrite marshallFileBlock_layout, !app_assoc.
  apply trailingField_app, DecToBin_length.
Qed.

(** C1, as amended: the two size fields of a frame differ by the word size.
    The leading field holds the byte length of id, length prefix and payload;
    the trailing field holds the byte length of everything before it, which is
    the leading value plus [WordSize]. *)
Theorem C1_size_fields (b : blockData) :
  representable (innerSize b + Z.of_nat WordSize) ->
  converter.BinToDec (leadingField (marshallFileBlock b))
  = Z.of_nat (length (converter.DecToBin (ID b) WordSize)
              + length (converter.EncodeLength (Z.of_nat (length (Data b))))
              + length (Data b))
  /\ converter.BinToDec (trailingField (marshallFileBlock b))
     = converter.BinToDec (leadingField (marshallFileBlock b)) + Z.of_nat WordSize.
Proof.
  intros Hsz. pose proof (innerSize_pos b) as Hpos.
  rewrite leadingField_frame.
  rewrite <- (app_nil_l (marshallFileBlock b)) at 1.
  rewrite trailingField_frame.
  rewrite !BinToDec_DecToBin by (unfold representable in *; lia).
  split; [|reflexivity].
  unfold innerSize, frameBody, converter.EncodeLengthPlusData.
  rewrite !length_app. lia.
Qed.

Lemma C1_size_fields_witness :
  converter.BinToDec (leadingField (marshallFileBlock (mkBlock 7 [x61; x62]))) = 9
  /\ converter.BinToDec (trailingField (marshallFileBlock (mkBlock 7 [x61; x62]))) = 14.
Proof.
  assert (Hr : representable (innerSize (mkBlock 7 [x61; x62]) + Z.of_nat WordSize)).
  { unfold representable. vm_compute. split; [discriminate | reflexivity]. }
  destruct (C1_size_fields (mkBlock 7 [x61; x62]) Hr) as [H1 H2].
  rewrite H2, H1. split; reflexivity.
Defined.

(** C1 as stated fails: in the frame of the record with id 1 and an empty
    payload the leading field holds 6 and the trailing field holds 11. *)
Lemma C1_fields_not_identical :
  leadingField (marshallFileBlock (mkBlock 1 [])) = [x00; x00; x00; x00; x06]
  /\ trailingField (marshallFileBlock (mkBlock 1 [])) = [x00; x00; x00; x00; x0b]
  /\ leadingField (marshallFileBlock (mkBlock 1 []))
     <> trailingField (marshallFileBlock (mkBlock 1 [])).
Proof.
  vm_compute. repeat split. discriminate.
Qed.

(** C3, as amended: a record whose id fits the word width and whose framed
    body (id, length prefix and payload together) is within the configured
    maximum and fits the word width is read back unchanged: [readBlock] on
    the output of [marshallFileBlock] returns it, and so does
    [unmarshalBlockData] on the bytes behind the leading size field. *)
Theorem C3_round_trip (MaxBlockSize : Z) (b : blockData) :
  representable (ID b) -> representable (innerSize b) ->
  innerSize b <= MaxBlockSize ->
  fst (readBlock MaxBlockSize (reader_of (marshallFileBlock b))) = Ok (Some b)
  /\ unmarshalBlockData (skipn WordSize (marshallFileBlock b)) = Ok b.
Proof.
  intros Hid Hsz Hmax. split.
  - assert (Hr : remaining (reader_of (marshallFileBlock b))
                 = marshallFileBlock b ++ []) by (now rewrite app_nil_r).
    assert (Ho : 0 <= offset (reader_of (marshallFileBlock b))) by (cbn; lia).
    destruct (readBlock_frame MaxBlockSize (reader_of (marshallFileBlock b)) b []
                              eq_refl Ho Hr Hid Hsz Hmax) as [h' [R _]].
    now rewrite R.
  - rewrite marshallFileBlock_layout, skipn_exact by apply DecToBin_length.
    now apply unmarshalBlockData_frameBody.
Qed.

Lemma C3_round_trip_witness :
  fst (readBlock 64 (reader_of (marshallFileBlock (mkBlock 7 [x61; x62]))))
  = Ok (Some (mkBlock 7 [x61; x62])).
Proof.
  apply (C3_round_trip 64 (mkBlock 7 [x61; x62]));
    unfold representable; vm_compute; try split; try discriminate; reflexivity.
Defined.

(** C3 as stated fails: with a maximum of 64, the record with id 1 and a
    payload of 64 bytes has [len(payload) <= max_block_size] and an id that
    fits the word width, yet its frame announces 71 bytes and [readBlock]
    rejects it. *)
Lemma C3_payload_at_limit_rejected :
  Z.of_nat (length (Data (mkBlock 1 (repeat x61 64)))) <= 64
  /\ representable (ID (mkBlock 1 (repeat x61 64)))
  /\ converter.BinToDec (leadingField (marshallFileBlock (mkBlock 1 (repeat x61 64))))
     = 71
  /\ fst (readBlock 64 (reader_of (marshallFileBlock (mkBlock 1 (repeat x61 64)))))
     = Err ErrSizeExceeded.
Proof.
  unfold representable. vm_compute.
  repeat split; try discriminate.
Qed.

Lemma frames_snoc (records : list blockData) (b : blockData) :
  frames (records ++ [b]) = frames records ++ marshallFileBlock b.
Proof.
  unfold frames. rewrite map_app, concat_app. simpl. now rewrite app_nil_r.
Qed.

Lemma frames_app (r1 r2 : list blockData) :
  frames (r1 ++ r2) = frames r1 ++ frames r2.
Proof.
  unfold frames. now rewrite map_app, concat_app.
Qed.

Lemma getLastBlockID_last_frame (MaxBlockSize : Z) (pre : list byte) (b : blockData) :
  representable (ID b) ->
  representable (innerSize b + Z.of_nat WordSize) ->
  innerSize b + Z.of_nat WordSize <= MaxBlockSize ->
  getLastBlockID MaxBlockSize (disk_with (pre ++ marshallFileBlock b)) = Ok (ID b).
Proof.
  intros Hid Hsz Hmax. unfold getLastBlockID.
  now rewrite getLastBlockID_run_last_frame.
Qed.

(** C2, as amended: on the archive made of the frames of a non-empty sequence
    of records, [getLastBlockID] returns the id of the last record whenever
    that id fits the word width and the value of the last frame's trailing
    field (the length of id, length prefix and payload, plus [WordSize]) fits
    the word width and is within the configured maximum; the ids and sizes
    of the earlier records do not matter.  On a path where no file exists it
    returns 0 and no error. *)
Theorem C2_reverse_locate (MaxBlockSize : Z) (earlier : list blockData)
        (lastRecord : blockData) :
  representable (ID lastRecord) ->
  representable (innerSize lastRecord + Z.of_nat WordSize) ->
  innerSize lastRecord + Z.of_nat WordSize <= MaxBlockSize ->
  getLastBlockID MaxBlockSize (disk_with (frames (earlier ++ [lastRecord])))
  = Ok (ID lastRecord)
  /\ getLastBlockID MaxBlockSize disk_without = Ok 0.
Proof.
  intros Hid Hsz Hmax. split; [|reflexivity].
  rewrite frames_snoc. now apply getLastBlockID_last_frame.
Qed.

Lemma C2_reverse_locate_witness :
  getLastBlockID 64 (disk_with (frames ([mkBlock 1 [x61]; mkBlock 2 []]
                                        ++ [mkBlock 5 [x62; x63]])))
  = Ok 5.
Proof.
  apply (C2_reverse_locate 64 [mkBlock 1 [x61]; mkBlock 2 []] (mkBlock 5 [x62; x63]));
    unfold representable; vm_compute; try split; try discriminate; reflexivity.
Defined.

(** C2 as stated fails: with a maximum of 64, the records with ids 1 < 2 and
    payloads of 1 and 64 bytes are within the maximum, but the last frame's
    trailing field holds 76 and [getLastBlockID] answers with the size
    error. *)
Lemma C2_payload_within_limit_rejected :
  Forall (fun b => Z.of_nat (length (Data b)) <= 64)
         [mkBlock 1 [x61]; mkBlock 2 (repeat x62 64)]
  /\ ID (mkBlock 1 [x61]) < ID (mkBlock 2 (repeat x62 64))
  /\ converter.BinToDec
       (trailingField (frames [mkBlock 1 [x61]; mkBlock 2 (repeat x62 64)])) = 76
  /\ getLastBlockID 64 (disk_with (frames [mkBlock 1 [x61]; mkBlock 2 (repeat x62 64)]))
     = Err ErrSizeExceeded.
Proof.
  split; [|split; [|split]].
  - repeat constructor; simpl; lia.
  - simpl. lia.
  - vm_compute. reflexivity.
  - vm_compute. reflexivity.
Qed.

(** C8: a missing archive and an empty one are told apart.  Where no file
    exists [getLastBlockID] returns 0 and no error, whatever else is wrong
    with the device; on an existing file of length zero it returns the error
    "empty blockchain file". *)
Theorem C8_missing_versus_empty (MaxBlockSize : Z) :
  (forall f : faults, getLastBlockID MaxBlockSize (mkDisk None f) = Ok 0)
  /\ getLastBlockID MaxBlockSize (disk_with []) = Err ErrEmptyFile
  /\ getLastBlockID MaxBlockSize disk_without
     <> getLastBlockID MaxBlockSize (disk_with []).
Proof.
  repeat split. discriminate.
Qed.

(** ** The first steps of the locator on any file of at least one word *)

Lemma trailingField_split (c : list byte) :
  (WordSize <= length c)%nat ->
  c = firstn (length c - WordSize) c ++ trailingField c
  /\ length (trailingField c) = WordSize.
Proof.
  intros Hc. unfold trailingField. split.
  - symmetry. apply firstn_skipn.
  - rewrite length_skipn. lia.
Qed.

Lemma getLastBlockID_run_steps (MaxBlockSize : Z) (c : list byte) :
  (WordSize <= length c)%nat ->
  getLastBlockID_run MaxBlockSize (disk_with c)
  = let size := converter.BinToDec (trailingField c) in
    let target := Z.of_nat (length c) - (size + Z.of_nat WordSize) in
    if size >? MaxBlockSize then (Err ErrSizeExceeded, [Z.of_nat WordSize])
    else if target <? 0 then (Err ErrSeek, [Z.of_nat WordSize])
    else
      let (r, h) :=
        (block <- readBlock MaxBlockSize ;;
         match block with
         | None => panic
         | Some b => ret (ID b)
         end) (mkHandle c target no_faults [Z.of_nat WordSize]) in
      (r, made h).
Proof.
  intros Hc. destruct (trailingField_split c Hc) as [Hsplit Htl].
  unfold getLastBlockID_run, disk_with. cbn [archive dev open_fails no_faults].
  unfold lastBlockOfFile, open. cbn [dev].
  unfold bind at 1. unfold on_error, Stat. cbn [hdev stat_fails no_faults content].
  destruct (Z.eqb_spec (Z.of_nat (length c)) 0) as [H0|_];
    [unfold WordSize in Hc; lia|].
  unfold bind at 1. rewrite SeekEnd_ok by seek_side.
  cbn [content hdev made].
  unfold bind at 1. unfold make at 1. cbn [content offset hdev made app].
  set (h1 := mkHandle c (Z.of_nat (length c) + - Z.of_nat WordSize) no_faults
                      [Z.of_nat WordSize]).
  assert (R1 : Read WordSize h1 = (Ok (trailingField c), advance h1 WordSize)).
  { eapply (Read_exact _ _ _ []); [reflexivity | | exact Htl | discriminate].
    rewrite app_nil_r.
    apply (remaining_at h1 (firstn (length c - WordSize) c)).
    - exact Hsplit.
    - cbn [offset h1]. rewrite length_firstn. lia. }
  unfold bind at 1. rewrite R1. cbv zeta.
  destruct (converter.BinToDec (trailingField c) >? MaxBlockSize); [reflexivity|].
  unfold bind at 1. unfold SeekEnd.
  cbn [hdev advance h1 seek_fails no_faults content made].
  replace (Z.of_nat (length c)
           + - (converter.BinToDec (trailingField c) + Z.of_nat WordSize))
    with (Z.of_nat (length c)
          - (converter.BinToDec (trailingField c) + Z.of_nat WordSize)) by lia.
  destruct (Z.of_nat (length c)
            - (converter.BinToDec (trailingField c) + Z.of_nat WordSize) <? 0);
    reflexivity.
Qed.

Lemma BinToDec_from_nonneg (bin : list byte) (acc : Z) :
  0 <= acc -> 0 <= converter.BinToDec_from acc bin.
Proof.
  revert acc. induction bin as [|x bin IH]; intros acc Ha; simpl; [assumption|].
  apply IH. pose proof (Z_of_byte_range x). lia.
Qed.

Lemma BinToDec_nonneg (bin : list byte) : 0 <= converter.BinToDec bin.
Proof. apply BinToDec_from_nonneg. lia. Qed.

(** C10: on an existing archive of at least [WordSize] bytes whose last
    [WordSize] bytes decode to zero, with a non-negative configured maximum,
    [readBlock] returns the absent record without error at the place the
    locator seeks to, and [getLastBlockID] then panics on [block.ID]. *)
Theorem C10_nil_dereference (MaxBlockSize : Z) (c : list byte) :
  0 <= MaxBlockSize ->
  (WordSize <= length c)%nat ->
  converter.BinToDec (trailingField c) = 0 ->
  fst (readBlock MaxBlockSize
         (mkHandle c (Z.of_nat (length c) - Z.of_nat WordSize) no_faults []))
  = Ok None
  /\ getLastBlockID MaxBlockSize (disk_with c) = Panic.
Proof.
  intros Hmax Hc Hz. destruct (trailingField_split c Hc) as [Hsplit Htl].
  assert (RB : forall m,
             readBlock MaxBlockSize
               (mkHandle c (Z.of_nat (length c) - Z.of_nat WordSize) no_faults m)
             = (Ok None,
                advance (mkHandle c (Z.of_nat (length c) - Z.of_nat WordSize)
                                  no_faults (m ++ [Z.of_nat WordSize])) WordSize)).
  { intros m. unfold readBlock. unfold bind at 1. unfold make at 1.
    cbn [content offset hdev made].
    set (h1 := mkHandle c (Z.of_nat (length c) - Z.of_nat WordSize) no_faults
                        (m ++ [Z.of_nat WordSize])).
    assert (R1 : ReadFull WordSize h1 = (Ok (trailingField c), advance h1 WordSize)).
    { eapply (ReadFull_exact _ _ _ []); [reflexivity | | exact Htl | discriminate].
      rewrite app_nil_r.
      apply (remaining_at h1 (firstn (length c - WordSize) c)).
      - exact Hsplit.
      - cbn [offset h1]. rewrite length_firstn. lia. }
    unfold bind. rewrite R1, Hz.
    destruct (Z.gtb_spec 0 MaxBlockSize) as [|_]; [lia|]. reflexivity. }
  split.
  - now rewrite RB.
  - unfold getLastBlockID. rewrite getLastBlockID_run_steps by exact Hc.
    cbv zeta. rewrite Hz.
    destruct (Z.gtb_spec 0 MaxBlockSize) as [|_]; [lia|].
    destruct (Z.ltb_spec (Z.of_nat (length c) - (0 + Z.of_nat WordSize)) 0) as [|_];
      [lia|].
    unfold bind.
    replace (Z.of_nat (length c) - (0 + Z.of_nat WordSize))
      with (Z.of_nat (length c) - Z.of_nat WordSize) by lia.
    rewrite RB. reflexivity.
Qed.

Lemma C10_nil_dereference_witness :
  getLastBlockID 64 (disk_with [x01; x00; x00; x00; x00; x00]) = Panic.
Proof.
  apply (C10_nil_dereference 64 [x01; x00; x00; x00; x00; x00]).
  - lia.
  - unfold WordSize. simpl. lia.
  - reflexivity.
Defined.

(** C7: a size field above the configured maximum is rejected before any
    buffer is sized from it.  [readBlock], at a place where [WordSize] bytes
    can be read and decode to more than the maximum, returns the size error
    having made only its [WordSize]-byte buffer; [getLastBlockID], on a file
    whose last [WordSize] bytes decode to more than the maximum, returns the
    size error having made only its [WordSize]-byte buffer. *)
Theorem C7_oversized_rejected (MaxBlockSize : Z) (h : handle)
        (field rest c : list byte) :
  read_fails (hdev h) = false ->
  remaining h = field ++ rest -> length field = WordSize ->
  converter.BinToDec field > MaxBlockSize ->
  (WordSize <= length c)%nat ->
  converter.BinToDec (trailingField c) > MaxBlockSize ->
  (exists h', readBlock MaxBlockSize h = (Err ErrSizeExceeded, h')
              /\ made h' = made h ++ [Z.of_nat WordSize])
  /\ getLastBlockID_run MaxBlockSize (disk_with c)
     = (Err ErrSizeExceeded, [Z.of_nat WordSize]).
Proof.
  intros Hf Hr Hlen Hbig Hc Hcbig. split.
  - set (h1 := mkHandle (content h) (offset h) (hdev h)
                        (made h ++ [Z.of_nat WordSize])).
    assert (R1 : ReadFull WordSize h1 = (Ok field, advance h1 WordSize)).
    { eapply ReadFull_exact; [exact Hf | exact Hr | exact Hlen | discriminate]. }
    exists (advance h1 WordSize). split; [|reflexivity].
    unfold readBlock. unfold bind at 1. unfold make at 1. fold h1.
    unfold bind. rewrite R1.
    destruct (Z.gtb_spec (converter.BinToDec field) MaxBlockSize) as [_|]; [|lia].
    reflexivity.
  - rewrite getLastBlockID_run_steps by exact Hc. cbv zeta.
    destruct (Z.gtb_spec (converter.BinToDec (trailingField c)) MaxBlockSize)
      as [_|]; [|lia].
    reflexivity.
Qed.

Lemma C7_oversized_rejected_witness :
  (exists h', readBlock 64 (reader_of [x00; x00; x00; x01; x00; x07])
              = (Err ErrSizeExceeded, h')
              /\ made h' = [5])
  /\ getLastBlockID_run 64 (disk_with [x07; x00; x00; x00; x01; x00])
     = (Err ErrSizeExceeded, [5]).
Proof.
  apply (C7_oversized_rejected 64 (reader_of [x00; x00; x00; x01; x00; x07])
           [x00; x00; x00; x01; x00] [x07] [x07; x00; x00; x00; x01; x00]).
  - reflexivity.
  - reflexivity.
  - reflexivity.
  - vm_compute. reflexivity.
  - unfold WordSize. simpl. lia.
  - vm_compute. reflexivity.
Defined.

(** C6, as amended: [getLastBlockID] takes its back-pointer from the last
    [WordSize] bytes of the file, whatever they belong to.  On complete frames
    followed by a strict prefix [partial] of one more frame it returns the id
    of the last complete frame when [partial] is empty; otherwise the last
    [WordSize] bytes of the file are read as the size: above the maximum the
    answer is the size error, and when the size plus [WordSize] exceeds the
    length of the file the answer is the seek error. *)
Theorem C6_partial_tail (MaxBlockSize : Z) (complete : list blockData)
        (lastComplete next : blockData) (partial missing : list byte) :
  representable (ID lastComplete) ->
  representable (innerSize lastComplete + Z.of_nat WordSize) ->
  innerSize lastComplete + Z.of_nat WordSize <= MaxBlockSize ->
  marshallFileBlock next = partial ++ missing -> missing <> [] ->
  let c := frames (complete ++ [lastComplete]) ++ partial in
  let size := converter.BinToDec (trailingField c) in
  (partial = [] -> getLastBlockID MaxBlockSize (disk_with c) = Ok (ID lastComplete))
  /\ (partial <> [] -> size > MaxBlockSize ->
      getLastBlockID MaxBlockSize (disk_with c) = Err ErrSizeExceeded)
  /\ (partial <> [] -> size <= MaxBlockSize ->
      Z.of_nat (length c) < size + Z.of_nat WordSize ->
      getLastBlockID MaxBlockSize (disk_with c) = Err ErrSeek).
Proof.
  intros Hid Hsz Hmax Hnext Hmiss c size.
  assert (Hc : (WordSize <= length c)%nat).
  { subst c. rewrite frames_snoc, !length_app.
    pose proof (marshallFileBlock_length lastComplete) as Hl.
    pose proof (innerSize_pos lastComplete). unfold WordSize in *. lia. }
  split; [|split].
  - intros ->. subst c. rewrite app_nil_r, frames_snoc.
    now apply getLastBlockID_last_frame.
  - intros _ Hbig. unfold getLastBlockID.
    rewrite getLastBlockID_run_steps by exact Hc. cbv zeta. fold size.
    destruct (Z.gtb_spec size MaxBlockSize) as [_|]; [reflexivity | lia].
  - intros _ Hle Hshort. unfold getLastBlockID.
    rewrite getLastBlockID_run_steps by exact Hc. cbv zeta. fold size.
    destruct (Z.gtb_spec size MaxBlockSize) as [|_]; [lia|].
    destruct (Z.ltb_spec (Z.of_nat (length c) - (size + Z.of_nat WordSize)) 0)
      as [_|]; [reflexivity | lia].
Qed.

Lemma C6_partial_tail_witness :
  getLastBlockID 67108864
    (disk_with (frames ([] ++ [mkBlock 1 []]) ++ [x00; x00; x00; x00; x06; x00; x00]))
  = Err ErrSeek.
Proof.
  refine (proj2 (proj2 (C6_partial_tail 67108864 [] (mkBlock 1 []) (mkBlock 2 [])
                          [x00; x00; x00; x00; x06; x00; x00]
                          [x00; x00; x02; x00; x00; x00; x00; x00; x0b]
                          _ _ _ _ _)) _ _ _);
    unfold representable; vm_compute;
    try split; try discriminate; try reflexivity.
Defined.

(** C6 as stated fails: after the complete frame of record 1, the first
    seven bytes of the frame of record 2 (a strict prefix of it) make the
    last [WordSize] bytes of the file decode to 393216; with a maximum of
    64 MiB the locator answers with the seek error, not with id 1. *)
Lemma C6_partial_tail_breaks_locator :
  (exists missing, missing <> []
     /\ marshallFileBlock (mkBlock 2 [])
        = [x00; x00; x00; x00; x06; x00; x00] ++ missing)
  /\ getLastBlockID 67108864 (disk_with (frames [mkBlock 1 []])) = Ok 1
  /\ getLastBlockID 67108864
       (disk_with (frames [mkBlock 1 []] ++ [x00; x00; x00; x00; x06; x00; x00]))
     = Err ErrSeek.
Proof.
  split; [|split].
  - exists [x00; x00; x02; x00; x00; x00; x00; x00; x0b].
    split; [discriminate | vm_compute; reflexivity].
  - vm_compute. reflexivity.
  - vm_compute. reflexivity.
Qed.

(** ** Failures *)


(** C9: the code breaks the claim where [file.Stat] fails.  On an existing
    archive that [os.Open] opens, a failure of [Stat] makes [getLastBlockID]
    call [logger.Fatal]: the process ends, no error value reaches the caller,
    and [writeNextBlocks], which calls it first, does not return either. *)
Theorem C9_stat_failure_ends_process (MaxBlockSize : Z) (d : disk)
        (c : list byte) (db : ledger) (minToSave : Z) :
  archive d = Some c ->
  open_fails (dev d) = false -> stat_fails (dev d) = true ->
  getLastBlockID MaxBlockSize d = Exit
  /\ (forall e, getLastBlockID MaxBlockSize d <> Err e)
  /\ writeNextBlocks MaxBlockSize d db minToSave = (Exit, d).
Proof.
  intros Ha Ho Hs.
  assert (H : getLastBlockID MaxBlockSize d = Exit).
  { unfold getLastBlockID, getLastBlockID_run.
    rewrite Ha, Ho. unfold lastBlockOfFile, open, bind, on_error, Stat.
    cbn [hdev]. rewrite Hs. reflexivity. }
  split; [exact H | split].
  - intros e. rewrite H. discriminate.
  - unfold writeNextBlocks. now rewrite H.
Qed.

Lemma C9_stat_failure_ends_process_witness :
  getLastBlockID 64 (mkDisk (Some [x00]) (mkFaults false true false false None))
  = Exit
  /\ (forall e,
        getLastBlockID 64 (mkDisk (Some [x00]) (mkFaults false true false false None))
        <> Err e)
  /\ writeNextBlocks 64 (mkDisk (Some [x00]) (mkFaults false true false false None))
                     (mkLedger [[x61]] 1 false false) 1
     = (Exit, mkDisk (Some [x00]) (mkFaults false true false false None)).
Proof.
  apply (C9_stat_failure_ends_process 64
           (mkDisk (Some [x00]) (mkFaults false true false false None))
           [x00] (mkLedger [[x61]] 1 false false) 1); reflexivity.
Defined.



(** ** The ledger *)

Lemma numbered_app (l1 l2 : list (list byte)) (first : Z) :
  numbered first (l1 ++ l2)
  = numbered first l1 ++ numbered (first + Z.of_nat (length l1)) l2.
Proof.
  revert first. induction l1 as [|p l1 IH]; intros first.
  - simpl. f_equal. lia.
  - cbn [app numbered length]. rewrite IH. do 3 f_equal. lia.
Qed.

Lemma numbered_ids (l : list (list byte)) (first : Z) :
  Forall (fun b => first <= ID b < first + Z.of_nat (length l)) (numbered first l).
Proof.
  revert first. induction l as [|p l IH]; intros first; cbn [numbered length].
  - constructor.
  - constructor; [simpl; lia|].
    eapply Forall_impl; [|apply IH]. intros b Hb. cbv beta in *. lia.
Qed.

Lemma numbered_map_ID (l : list (list byte)) (first : nat) :
  map ID (numbered (Z.of_nat first) l) = map Z.of_nat (seq first (length l)).
Proof.
  revert first. induction l as [|p l IH]; intros first; cbn [numbered length seq map].
  - reflexivity.
  - f_equal. rewrite <- IH. do 2 f_equal. lia.
Qed.

Lemma numbered_map_Data (l : list (list byte)) (first : Z) :
  map Data (numbered first l) = l.
Proof.
  revert first. induction l as [|p l IH]; intros first; cbn [numbered map].
  - reflexivity.
  - now rewrite IH.
Qed.

Lemma filter_all {A : Type} (f : A -> bool) (l : list A) :
  Forall (fun x => f x = true) l -> filter f l = l.
Proof.
  induction 1 as [|x l Hx _ IH]; simpl; [reflexivity|]. now rewrite Hx, IH.
Qed.

Lemma filter_none {A : Type} (f : A -> bool) (l : list A) :
  Forall (fun x => f x = false) l -> filter f l = [].
Proof.
  induction 1 as [|x l Hx _ IH]; simpl; [reflexivity|]. now rewrite Hx, IH.
Qed.

Lemma increasing_weaken (l : list blockData) (p q : Z) :
  q <= p -> increasing p l -> increasing q l.
Proof.
  destruct l as [|b l]; simpl; [trivial|]. intros Hq [Hb Hl]. split; [lia | exact Hl].
Qed.

Lemma increasing_numbered (l : list (list byte)) (first : Z) :
  increasing (first - 1) (numbered first l).
Proof.
  revert first. induction l as [|p l IH]; intros first; cbn [numbered increasing].
  - exact I.
  - split; [simpl; lia|]. cbn [ID].
    replace first with (first + 1 - 1) at 1 by lia. apply IH.
Qed.

Lemma increasing_filter (f : blockData -> bool) (l : list blockData) (p : Z) :
  increasing p l -> increasing p (filter f l).
Proof.
  revert p. induction l as [|b l IH]; intros p; cbn [filter increasing]; [trivial|].
  intros [Hb Hl]. destruct (f b).
  - cbn [increasing]. split; [exact Hb | apply IH, Hl].
  - apply IH. eapply increasing_weaken; [|exact Hl]. lia.
Qed.

Lemma increasing_above (l : list blockData) (p q : Z) :
  increasing p l -> Forall (fun b => q < ID b) l -> increasing q l.
Proof.
  destruct l as [|b l]; simpl; [trivial|].
  intros [_ Hl] Hall. inversion Hall; subst. split; assumption.
Qed.

Lemma increasing_app (l1 l2 : list blockData) (p : Z) :
  increasing p (l1 ++ l2) <-> increasing p l1 /\ increasing (lastID p l1) l2.
Proof.
  revert p. induction l1 as [|b l1 IH]; intros p; cbn [app increasing lastID].
  - tauto.
  - rewrite IH. tauto.
Qed.

Lemma lastID_app (l1 l2 : list blockData) (p : Z) :
  lastID p (l1 ++ l2) = lastID (lastID p l1) l2.
Proof.
  revert p. induction l1 as [|b l1 IH]; intros p; cbn [app lastID];
    [reflexivity | apply IH].
Qed.

(** What [GetBlockchain] returns: rows of the ledger, ids strictly rising,
    all above the start and at most the end. *)
Lemma GetBlockchain_spec (db : ledger) (lo hi : Z) (blocks : list blockData) :
  GetBlockchain db lo hi = Some blocks ->
  increasing lo blocks
  /\ Forall (fun b => lo < ID b <= hi) blocks
  /\ Forall (fun b => In b (numbered 1 (chain db))) blocks.
Proof.
  unfold GetBlockchain. destruct (query_fails db); [discriminate|].
  intros H. injection H as <-.
  assert (Hall : Forall (fun b => lo < ID b <= hi)
                   (filter (fun b => (lo <? ID b) && (ID b <=? hi))
                           (numbered 1 (chain db)))).
  { apply Forall_forall. intros b Hb. apply filter_In in Hb.
    destruct Hb as [_ Hb]. apply andb_true_iff in Hb. lia. }
  split; [|split].
  - eapply increasing_above.
    + apply increasing_filter. apply (increasing_numbered (chain db) 1).
    + eapply Forall_impl; [|exact Hall]. intros b Hb. cbv beta in Hb. lia.
  - exact Hall.
  - apply Forall_forall. intros b Hb. apply filter_In in Hb. tauto.
Qed.

(** ** The catch-up writer *)

Lemma frames_cons (b : blockData) (records : list blockData) :
  frames (b :: records) = marshallFileBlock b ++ frames records.
Proof. reflexivity. Qed.

Lemma writeBlocks_no_faults (blocks : list blockData) (c : list byte) :
  writeBlocks (disk_with c) blocks = (Ok tt, disk_with (c ++ frames blocks)).
Proof.
  revert c. induction blocks as [|b blocks IH]; intros c.
  - cbn [writeBlocks]. unfold frames. simpl. now rewrite app_nil_r.
  - cbn [writeBlocks].
    change (Write (disk_with c) (marshallFileBlock b))
      with (Ok tt, disk_with (c ++ marshallFileBlock b)).
    cbv iota beta. rewrite IH, frames_cons, app_assoc. reflexivity.
Qed.

(** One run of the writer on a device without faults, once the locator has
    answered and the ledger has answered. *)
Lemma writeNextBlocks_run (MaxBlockSize : Z) (d : disk) (db : ledger)
      (minToSave last : Z) :
  dev d = no_faults ->
  getLastBlockID MaxBlockSize d = Ok last ->
  info_fails db = false -> query_fails db = false ->
  writeNextBlocks MaxBlockSize d db minToSave
  = if BlockID db - minToSave <? last then (Ok tt, d)
    else (Ok tt,
          disk_with (bytes_of d
                     ++ frames (filter (fun b => (last <? ID b)
                                                 && (ID b <=? last + minToSave))
                                       (numbered 1 (chain db))))).
Proof.
  intros Hd Hl Hi Hq. unfold writeNextBlocks, infoBlock_Get, GetBlockchain.
  rewrite Hl, Hi, Hq, Hd.
  destruct (BlockID db - minToSave <? last); [reflexivity|].
  cbn [open_fails no_faults]. unfold OpenFile. rewrite Hd.
  change (mkDisk (Some match archive d with Some c => c | None => [] end) no_faults)
    with (disk_with (bytes_of d)).
  apply writeBlocks_no_faults.
Qed.

(** C4: with block 100 as the last archived record and a batch of 50, the
    writer leaves the archive as it is when the chain height is 140; when the
    height is 200 and the ledger holds its 200 blocks, it appends the frames
    of the blocks 101, 102, ..., 150 with their ledger payloads, and nothing
    else. *)
Theorem C4_batch_threshold (MaxBlockSize : Z) (pre : list byte)
        (saved : blockData) (db : ledger) :
  ID saved = 100 ->
  representable (innerSize saved + Z.of_nat WordSize) ->
  innerSize saved + Z.of_nat WordSize <= MaxBlockSize ->
  info_fails db = false -> query_fails db = false ->
  (BlockID db = 140 ->
   writeNextBlocks MaxBlockSize (disk_with (pre ++ marshallFileBlock saved)) db 50
   = (Ok tt, disk_with (pre ++ marshallFileBlock saved)))
  /\ (BlockID db = 200 -> length (chain db) = 200%nat ->
      exists blocks,
        writeNextBlocks MaxBlockSize (disk_with (pre ++ marshallFileBlock saved)) db 50
        = (Ok tt, disk_with ((pre ++ marshallFileBlock saved) ++ frames blocks))
        /\ map ID blocks = map Z.of_nat (seq 101 50)
        /\ map Data blocks = firstn 50 (skipn 100 (chain db))).
Proof.
  intros Hid Hsz Hmax Hi Hq.
  assert (Hrep : representable (ID saved))
    by (rewrite Hid; unfold representable; simpl; lia).
  pose proof (getLastBlockID_last_frame MaxBlockSize pre saved Hrep Hsz Hmax) as Hlast.
  rewrite Hid in Hlast. split.
  - intros Hh.
    rewrite (writeNextBlocks_run MaxBlockSize (disk_with (pre ++ marshallFileBlock saved))
               db 50 100 eq_refl Hlast Hi Hq), Hh.
    reflexivity.
  - intros Hh Hlen.
    exists (numbered 101 (firstn 50 (skipn 100 (chain db)))).
    rewrite (writeNextBlocks_run MaxBlockSize (disk_with (pre ++ marshallFileBlock saved))
               db 50 100 eq_refl Hlast Hi Hq), Hh.
    change (200 - 50 <? 100) with false. cbv iota.
    set (l1 := firstn 100 (chain db)).
    set (l2 := firstn 50 (skipn 100 (chain db))).
    set (l3 := skipn 50 (skipn 100 (chain db))).
    assert (Hchain : chain db = l1 ++ l2 ++ l3).
    { subst l1 l2 l3. now rewrite !firstn_skipn. }
    assert (Hl1 : length l1 = 100%nat) by (subst l1; rewrite length_firstn; lia).
    assert (Hl2 : length l2 = 50%nat)
      by (subst l2; rewrite length_firstn, length_skipn; lia).
    split; [|split].
    + do 3 f_equal. rewrite Hchain, !numbered_app, !filter_app, Hl1, Hl2.
      rewrite (filter_none _ (numbered 1 l1)), (filter_all _ (numbered (1 + 100) l2)),
        (filter_none _ (numbered (1 + 100 + 50) l3)).
      * now rewrite app_nil_r.
      * eapply Forall_impl; [|apply numbered_ids]. intros b Hb. cbv beta in *.
        apply andb_false_iff. right. lia.
      * eapply Forall_impl; [|apply numbered_ids]. intros b Hb. cbv beta in *.
        rewrite Hl2 in Hb. apply andb_true_iff. lia.
      * eapply Forall_impl; [|apply numbered_ids]. intros b Hb. cbv beta in *.
        rewrite Hl1 in Hb. apply andb_false_iff. left. lia.
    + change 101 with (Z.of_nat 101). now rewrite numbered_map_ID, Hl2.
    + apply numbered_map_Data.
Qed.

Lemma C4_batch_threshold_witness :
  writeNextBlocks 64 (disk_with ([x2a] ++ marshallFileBlock (mkBlock 100 [x61])))
                  (mkLedger (repeat [x62] 140) 140 false false) 50
  = (Ok tt, disk_with ([x2a] ++ marshallFileBlock (mkBlock 100 [x61]))).
Proof.
  refine (proj1 (C4_batch_threshold 64 [x2a] (mkBlock 100 [x61])
                   (mkLedger (repeat [x62] 140) 140 false false) _ _ _ _ _) _);
    unfold representable; vm_compute;
    try split; try discriminate; reflexivity.
Defined.

Lemma lastID_snoc (records : list blockData) (b : blockData) (p : Z) :
  lastID p (records ++ [b]) = ID b.
Proof. now rewrite lastID_app. Qed.

(** The locator on a well-formed archive answers with the last archived id,
    and with 0 where no file exists; it fails on an existing file without
    records. *)
Lemma getLastBlockID_archived (MaxBlockSize : Z) (d : disk)
      (records : list blockData) (last : Z) :
  archived d records -> Forall (fits MaxBlockSize) records ->
  getLastBlockID MaxBlockSize d = Ok last ->
  last = lastID 0 records /\ (records = [] -> archive d = None).
Proof.
  intros [Hdev Harch] Hfits Hl.
  destruct d as [a f]. cbn [dev archive] in *. subst f.
  destruct a as [c|].
  - subst c. destruct records as [|r0 records'] using rev_ind.
    + discriminate Hl.
    + clear IHrecords'. apply Forall_app in Hfits. destruct Hfits as [_ Hr].
      inversion Hr as [|? ? [Hid [Hsz Hmax]] _]; subst.
      rewrite frames_snoc in Hl.
      change (mkDisk (Some (frames records' ++ marshallFileBlock r0)) no_faults)
        with (disk_with (frames records' ++ marshallFileBlock r0)) in Hl.
      rewrite getLastBlockID_last_frame in Hl by assumption.
      injection Hl as <-. rewrite lastID_snoc. split; [reflexivity|].
      intros H. destruct records'; discriminate H.
  - subst records. injection Hl as <-. split; reflexivity.
Qed.

(** One completed run from a well-formed archive: the archive grows by the
    frames of a batch of ledger blocks whose ids rise strictly from above the
    last archived id; the batch is empty when the threshold is not reached and
    is the ledger's answer for the range otherwise. *)
Lemma writeNextBlocks_archived (MaxBlockSize : Z) (d d' : disk)
      (records : list blockData) (db : ledger) (minToSave : Z) :
  archived d records -> increasing 0 records ->
  Forall (fits MaxBlockSize) records ->
  writeNextBlocks MaxBlockSize d db minToSave = (Ok tt, d') ->
  exists batch,
    archived d' (records ++ batch)
    /\ increasing 0 (records ++ batch)
    /\ Forall (fun b => In b (numbered 1 (chain db))) batch
    /\ (BlockID db - minToSave < lastID 0 records -> batch = [] /\ d' = d)
    /\ (lastID 0 records <= BlockID db - minToSave ->
        GetBlockchain db (lastID 0 records) (lastID 0 records + minToSave)
        = Some batch).
Proof.
  intros Harch Hinc Hfits Hrun.
  destruct (getLastBlockID MaxBlockSize d) as [last| | |] eqn:Hl;
    try (unfold writeNextBlocks in Hrun; rewrite Hl in Hrun; discriminate Hrun).
  destruct (getLastBlockID_archived _ _ _ _ Harch Hfits Hl) as [-> Hnone].
  destruct (info_fails db) eqn:Hi;
    [unfold writeNextBlocks, infoBlock_Get in Hrun; rewrite Hl, Hi in Hrun;
     discriminate Hrun|].
  destruct (query_fails db) eqn:Hq.
  { unfold writeNextBlocks, infoBlock_Get, GetBlockchain in Hrun.
    rewrite Hl, Hi, Hq in Hrun.
    destruct (Z.ltb_spec (BlockID db - minToSave) (lastID 0 records));
      [|discriminate Hrun].
    injection Hrun as <-. exists []. rewrite app_nil_r.
    repeat split; try assumption; try apply Harch; try constructor; lia. }
  rewrite (writeNextBlocks_run _ _ _ _ _ (proj1 Harch) Hl Hi Hq) in Hrun.
  destruct (Z.ltb_spec (BlockID db - minToSave) (lastID 0 records)) as [Hlt|Hge].
  - injection Hrun as <-. exists []. rewrite app_nil_r.
    repeat split; try assumption; try apply Harch; try constructor; lia.
  - injection Hrun as <-.
    set (batch := filter (fun b => (lastID 0 records <? ID b)
                                   && (ID b <=? lastID 0 records + minToSave))
                         (numbered 1 (chain db))).
    assert (Hget : GetBlockchain db (lastID 0 records) (lastID 0 records + minToSave)
                   = Some batch).
    { unfold GetBlockchain. now rewrite Hq. }
    destruct (GetBlockchain_spec _ _ _ _ Hget) as [Hb1 [_ Hb3]].
    exists batch. split; [|split; [|split; [|split]]].
    + split; [reflexivity|]. cbn [archive disk_with]. rewrite frames_app. f_equal.
      destruct Harch as [_ Ha]. unfold bytes_of.
      destruct (archive d); [exact Ha | now subst records].
    + apply increasing_app. split; assumption.
    + exact Hb3.
    + intros. lia.
    + intros _. exact Hget.
Qed.

(** C5, as amended: a second run right after a completed one, with the ledger
    unchanged, is not always a no-op.  Starting from a well-formed archive
    with a ledger whose blocks the locator can find again, two completed runs
    in a row each append a batch of ledger blocks; the ids in the archive
    still rise strictly afterwards, so no id already in the file is written
    again; the second batch is empty, and the archive untouched, when the
    chain height minus the batch size is below the last archived id, and it
    is the ledger's answer for the next range otherwise. *)
Theorem C5_second_run (MaxBlockSize : Z) (d0 d1 d2 : disk)
        (records : list blockData) (db : ledger) (minToSave : Z) :
  archived d0 records -> increasing 0 records ->
  Forall (fits MaxBlockSize) records ->
  Forall (fits MaxBlockSize) (numbered 1 (chain db)) ->
  writeNextBlocks MaxBlockSize d0 db minToSave = (Ok tt, d1) ->
  writeNextBlocks MaxBlockSize d1 db minToSave = (Ok tt, d2) ->
  exists first second,
    archived d1 (records ++ first)
    /\ archived d2 ((records ++ first) ++ second)
    /\ increasing 0 ((records ++ first) ++ second)
    /\ (BlockID db - minToSave < lastID 0 (records ++ first) ->
        second = [] /\ d2 = d1)
    /\ (lastID 0 (records ++ first) <= BlockID db - minToSave ->
        GetBlockchain db (lastID 0 (records ++ first))
                      (lastID 0 (records ++ first) + minToSave)
        = Some second).
Proof.
  intros Harch Hinc Hfits Hdb Hrun1 Hrun2.
  destruct (writeNextBlocks_archived _ _ _ _ _ _ Harch Hinc Hfits Hrun1)
    as [first [Harch1 [Hinc1 [Hin1 _]]]].
  assert (Hfits1 : Forall (fits MaxBlockSize) (records ++ first)).
  { apply Forall_app. split; [exact Hfits|].
    apply Forall_forall. intros b Hb.
    rewrite Forall_forall in Hin1, Hdb. apply Hdb, Hin1, Hb. }
  destruct (writeNextBlocks_archived _ _ _ _ _ _ Harch1 Hinc1 Hfits1 Hrun2)
    as [second [Harch2 [Hinc2 [_ [Hno Hyes]]]]].
  exists first, second.
  split; [exact Harch1 | split; [exact Harch2 | split; [exact Hinc2 | split]]];
    assumption.
Qed.

Lemma C5_second_run_witness :
  exists first second,
    archived (disk_with (frames [mkBlock 1 [x61]])) ([] ++ first)
    /\ archived (disk_with (frames [mkBlock 1 [x61]; mkBlock 2 [x62]]))
                (([] ++ first) ++ second)
    /\ increasing 0 (([] ++ first) ++ second)
    /\ (2 - 1 < lastID 0 ([] ++ first) ->
        second = []
        /\ disk_with (frames [mkBlock 1 [x61]; mkBlock 2 [x62]])
           = disk_with (frames [mkBlock 1 [x61]]))
    /\ (lastID 0 ([] ++ first) <= 2 - 1 ->
        GetBlockchain (mkLedger [[x61]; [x62]] 2 false false)
                      (lastID 0 ([] ++ first)) (lastID 0 ([] ++ first) + 1)
        = Some second).
Proof.
  apply (C5_second_run 64 disk_without
           (disk_with (frames [mkBlock 1 [x61]]))
           (disk_with (frames [mkBlock 1 [x61]; mkBlock 2 [x62]]))
           [] (mkLedger [[x61]; [x62]] 2 false false) 1).
  - split; reflexivity.
  - exact I.
  - constructor.
  - repeat constructor; unfold representable; vm_compute;
      try discriminate; reflexivity.
  - vm_compute. reflexivity.
  - vm_compute. reflexivity.
Defined.

(** C5 as stated fails: with a ledger of two blocks (height 2) and a batch of
    1, the first run on a missing archive writes block 1, and the second run,
    with the ledger unchanged, writes block 2. *)
Lemma C5_second_run_writes :
  writeNextBlocks 64 disk_without (mkLedger [[x61]; [x62]] 2 false false) 1
  = (Ok tt, disk_with (frames [mkBlock 1 [x61]]))
  /\ writeNextBlocks 64 (disk_with (frames [mkBlock 1 [x61]]))
                     (mkLedger [[x61]; [x62]] 2 false false) 1
     = (Ok tt, disk_with (frames [mkBlock 1 [x61]] ++ marshallFileBlock (mkBlock 2 [x62])))
  /\ marshallFileBlock (mkBlock 2 [x62]) <> [].
Proof.
  split; [|split].
  - vm_compute. reflexivity.
  - vm_compute. reflexivity.
  - vm_compute. discriminate.
Qed.


(** * Further properties of the codec, the locator and the writer *)

(** ** [readBlock], step by step *)

Lemma Read_padded (n : nat) (h : handle) :
  read_fails (hdev h) = false -> remaining h <> [] -> n <> O ->
  Read n h = (Ok (padded n (remaining h)),
              advance h (length (firstn n (remaining h)))).
Proof.
  intros Hf Hr Hn. unfold Read, padded. rewrite Hf.
  destruct n as [|n]; [contradiction|].
  destruct (remaining h) as [|x l]; [contradiction | reflexivity].
Qed.

Lemma padded_length (n : nat) (rest : list byte) : length (padded n rest) = n.
Proof.
  unfold padded. rewrite length_app, repeat_length.
  pose proof (firstn_le_length n rest). rewrite length_firstn in *. lia.
Qed.

(** After a size field [size] within the maximum and not zero, with at least
    one more byte in the file, [readBlock] hands the padded buffer to
    [unmarshalBlockData] and returns what it returns. *)
Lemma readBlock_after_size (MaxBlockSize : Z) (h : handle) (size : Z)
      (rest : list byte) :
  read_fails (hdev h) = false -> 0 <= offset h ->
  remaining h = converter.DecToBin size WordSize ++ rest ->
  representable size -> size <> 0 -> size <= MaxBlockSize -> rest <> [] ->
  readBlock MaxBlockSize h
  = (match unmarshalBlockData (padded (Z.to_nat (size + Z.of_nat WordSize)) rest) with
     | Ok b => Ok (Some b)
     | Err e => Err e
     | Exit => Exit
     | Panic => Panic
     end,
     mkHandle (content h)
              (offset h + Z.of_nat WordSize
               + Z.of_nat (length (firstn (Z.to_nat (size + Z.of_nat WordSize)) rest)))
              (hdev h)
              (made h ++ [Z.of_nat WordSize; size + Z.of_nat WordSize])).
Proof.
  intros Hf Ho Hr Hsz Hnz Hmax Hrest.
  set (h1 := mkHandle (content h) (offset h) (hdev h) (made h ++ [Z.of_nat WordSize])).
  assert (R1 : ReadFull WordSize h1
               = (Ok (converter.DecToBin size WordSize), advance h1 WordSize)).
  { eapply ReadFull_exact; [exact Hf | exact Hr | apply DecToBin_length | discriminate]. }
  set (h3 := mkHandle (content h) (offset h + Z.of_nat WordSize) (hdev h)
                      ((made h ++ [Z.of_nat WordSize]) ++ [size + Z.of_nat WordSize])).
  assert (Hr3 : remaining h3 = rest).
  { change (remaining h3) with (remaining (advance h1 WordSize)).
    rewrite remaining_advance by exact Ho.
    change (remaining h1) with (remaining h). rewrite Hr.
    apply skipn_exact, DecToBin_length. }
  assert (R3 : Read (Z.to_nat (size + Z.of_nat WordSize)) h3
               = (Ok (padded (Z.to_nat (size + Z.of_nat WordSize)) rest),
                  advance h3 (length (firstn (Z.to_nat (size + Z.of_nat WordSize)) rest)))).
  { rewrite <- Hr3. apply Read_padded; [exact Hf | now rewrite Hr3 |].
    unfold representable, WordSize in *. lia. }
  unfold readBlock. unfold bind at 1. unfold make at 1. fold h1.
  unfold bind at 1. rewrite R1.
  rewrite BinToDec_DecToBin by exact Hsz.
  destruct (Z.gtb_spec size MaxBlockSize) as [|_]; [lia|].
  destruct (Z.eqb_spec size 0) as [|_]; [contradiction|].
  unfold bind at 1. unfold make at 1.
  change (mkHandle (content (advance h1 WordSize)) (offset (advance h1 WordSize))
                   (hdev (advance h1 WordSize))
                   (made (advance h1 WordSize) ++ [size + Z.of_nat WordSize]))
    with h3.
  unfold bind at 1. rewrite R3. unfold bind, lift, ret.
  destruct (unmarshalBlockData (padded (Z.to_nat (size + Z.of_nat WordSize)) rest));
    unfold advance, h3; cbn [content offset hdev made]; rewrite <- app_assoc;
    reflexivity.
Qed.

Lemma remaining_shift (h : handle) (k : nat) (f : faults) (m : list Z) :
  0 <= offset h ->
  remaining (mkHandle (content h) (offset h + Z.of_nat k) f m) = skipn k (remaining h).
Proof.
  intros Ho. unfold remaining. cbn [content offset].
  rewrite skipn_skipn. f_equal. lia.
Qed.

(** Reading a block where a frame body follows its size field: the record
    comes back whatever the [WordSize] bytes behind the body are, and the
    reader stands right behind them. *)
Lemma readBlock_frame_next (MaxBlockSize : Z) (h : handle) (b : blockData)
      (t tail : list byte) :
  read_fails (hdev h) = false -> 0 <= offset h ->
  remaining h = converter.DecToBin (innerSize b) WordSize ++ frameBody b ++ t ++ tail ->
  length t = WordSize -> readable MaxBlockSize b ->
  exists h',
    readBlock MaxBlockSize h = (Ok (Some b), h')
    /\ remaining h' = tail /\ hdev h' = hdev h /\ 0 <= offset h'.
Proof.
  intros Hf Ho Hr Ht [Hid [Hsz Hmax]].
  pose proof (innerSize_pos b) as Hpos.
  assert (Hn : Z.to_nat (innerSize b + Z.of_nat WordSize) = length (frameBody b ++ t)).
  { rewrite length_app, Ht. unfold innerSize. lia. }
  assert (Hfirst : firstn (Z.to_nat (innerSize b + Z.of_nat WordSize))
                          (frameBody b ++ t ++ tail) = frameBody b ++ t).
  { rewrite app_assoc. now apply firstn_exact. }
  eexists. split; [|split; [|split]].
  - rewrite (readBlock_after_size MaxBlockSize h (innerSize b) (frameBody b ++ t ++ tail));
      try assumption; try lia.
    + unfold padded. rewrite Hfirst, Hn, Nat.sub_diag. cbn [repeat].
      rewrite app_nil_r, unmarshalBlockData_frameBody by assumption. reflexivity.
    + unfold frameBody. intros H. apply (f_equal (@length byte)) in H.
      rewrite !length_app, DecToBin_length in H. discriminate H.
  - rewrite <- Z.add_assoc, <- Nat2Z.inj_add.
    rewrite remaining_shift by exact Ho. rewrite Hr.
    replace (converter.DecToBin (innerSize b) WordSize ++ frameBody b ++ t ++ tail)
      with ((converter.DecToBin (innerSize b) WordSize ++ frameBody b ++ t) ++ tail)
      by (now rewrite <- !app_assoc).
    apply skipn_exact. rewrite !length_app, DecToBin_length. lia.
  - reflexivity.
  - cbn [offset]. lia.
Qed.

(** X1.  [readBlock] does not look at the trailing size field: where a size
    field is followed by the body of a readable record and by any
    [WordSize] bytes, it returns the record. *)
Theorem readBlock_ignores_trailer (MaxBlockSize : Z) (b : blockData)
        (t tail : list byte) :
  length t = WordSize -> readable MaxBlockSize b ->
  fst (readBlock MaxBlockSize
         (reader_of (converter.DecToBin (innerSize b) WordSize
                     ++ frameBody b ++ t ++ tail)))
  = Ok (Some b).
Proof.
  intros Ht Hb.
  set (c := converter.DecToBin (innerSize b) WordSize ++ frameBody b ++ t ++ tail).
  assert (Ho : 0 <= offset (reader_of c)) by (cbn [offset reader_of]; lia).
  destruct (readBlock_frame_next MaxBlockSize (reader_of c) b t tail
              eq_refl Ho eq_refl Ht Hb) as [h' [R _]].
  now rewrite R.
Qed.

Lemma readBlock_ignores_trailer_witness :
  fst (readBlock 64
         (reader_of (converter.DecToBin (innerSize (mkBlock 7 [x61])) WordSize
                     ++ frameBody (mkBlock 7 [x61])
                     ++ [xff; xff; xff; xff; xff] ++ [x2a])))
  = Ok (Some (mkBlock 7 [x61])).
Proof.
  apply (readBlock_ignores_trailer 64 (mkBlock 7 [x61]) [xff; xff; xff; xff; xff] [x2a]).
  - reflexivity.
  - unfold readable, representable. vm_compute.
    repeat split; try discriminate.
Defined.

Lemma ReadFull_short (n : nat) (h : handle) :
  read_fails (hdev h) = false -> (length (remaining h) < n)%nat ->
  fst (ReadFull n h)
  = Err (match remaining h with [] => EOF | _ :: _ => ErrUnexpectedEOF end)
  /\ made (snd (ReadFull n h)) = made h.
Proof.
  intros Hf Hlt. unfold ReadFull. rewrite Hf.
  destruct (Nat.eqb_spec n 0) as [|_]; [lia|].
  destruct (remaining h) as [|x l] eqn:E.
  - split; reflexivity.
  - change (length (x :: l) =? 0)%nat with false. cbv iota.
    destruct (Nat.ltb_spec (length (x :: l)) n) as [_|]; [|lia].
    split; reflexivity.
Qed.

Lemma readBlock_short (MaxBlockSize : Z) (h : handle) :
  read_fails (hdev h) = false -> (length (remaining h) < WordSize)%nat ->
  fst (readBlock MaxBlockSize h)
  = Err (match remaining h with [] => EOF | _ :: _ => ErrUnexpectedEOF end)
  /\ made (snd (readBlock MaxBlockSize h)) = made h ++ [Z.of_nat WordSize].
Proof.
  intros Hf Hlt.
  set (h1 := mkHandle (content h) (offset h) (hdev h) (made h ++ [Z.of_nat WordSize])).
  destruct (ReadFull_short WordSize h1 Hf Hlt) as [H1 H2].
  change (remaining h1) with (remaining h) in H1.
  destruct (ReadFull WordSize h1) as [r h2] eqn:RF.
  cbn [fst snd] in H1, H2. subst r.
  assert (R : readBlock MaxBlockSize h
              = (Err (match remaining h with [] => EOF | _ :: _ => ErrUnexpectedEOF end),
                 h2)).
  { unfold readBlock. unfold bind at 1. unfold make at 1. fold h1.
    unfold bind. rewrite RF. reflexivity. }
  rewrite R. split; [reflexivity | exact H2].
Qed.

(** X3.  At the end of the file [readBlock] returns [io.EOF]; with fewer
    than [WordSize] bytes left it returns [io.ErrUnexpectedEOF]; in both cases
    the only buffer made is the one for the size field. *)
Theorem readBlock_short_header (MaxBlockSize : Z) (h : handle) :
  read_fails (hdev h) = false -> (length (remaining h) < WordSize)%nat ->
  fst (readBlock MaxBlockSize h)
  = Err (match remaining h with [] => EOF | _ :: _ => ErrUnexpectedEOF end)
  /\ made (snd (readBlock MaxBlockSize h)) = made h ++ [Z.of_nat WordSize].
Proof. apply readBlock_short. Qed.

Lemma readBlock_short_header_witness :
  fst (readBlock 64 (reader_of [x00; x00; x07])) = Err ErrUnexpectedEOF
  /\ made (snd (readBlock 64 (reader_of [x00; x00; x07]))) = [5].
Proof.
  apply (readBlock_short_header 64 (reader_of [x00; x00; x07])).
  - reflexivity.
  - unfold WordSize. cbn. lia.
Defined.

Lemma frames_readable_next (MaxBlockSize : Z) (records : list blockData) :
  Forall (readable MaxBlockSize) records ->
  forall (h : handle) (tail : list byte),
    read_fails (hdev h) = false -> 0 <= offset h ->
    remaining h = frames records ++ tail ->
    exists h',
      readBlocks MaxBlockSize (length records) h = (Ok records, h')
      /\ remaining h' = tail /\ hdev h' = hdev h /\ 0 <= offset h'.
Proof.
  induction 1 as [|b records Hb _ IH]; intros h tail Hf Ho Hr.
  - exists h. cbn in *. repeat split; assumption.
  - rewrite frames_cons, marshallFileBlock_layout, <- !app_assoc in Hr.
    destruct (readBlock_frame_next MaxBlockSize h b _ _ Hf Ho Hr
                (DecToBin_length _ _) Hb) as [h1 [R1 [Hr1 [Hd1 Ho1]]]].
    destruct (IH h1 tail) as [h2 [R2 [Hr2 [Hd2 Ho2]]]];
      [now rewrite Hd1 | exact Ho1 | exact Hr1 |].
    exists h2. cbn [length readBlocks]. unfold bind at 1. rewrite R1.
    unfold bind. rewrite R2. unfold ret.
    repeat split; try assumption. now rewrite Hd2.
Qed.

(** X2.  Forward scan: on an archive made of the frames of readable records,
    as many calls of [readBlock] as there are records return the records in
    the order written, and the next call finds the end of the file. *)
Theorem readBlocks_reads_archive (MaxBlockSize : Z) (records : list blockData) :
  Forall (readable MaxBlockSize) records ->
  exists h',
    readBlocks MaxBlockSize (length records) (reader_of (frames records))
    = (Ok records, h')
    /\ fst (readBlock MaxBlockSize h') = Err EOF.
Proof.
  intros Hall.
  assert (Ho : 0 <= offset (reader_of (frames records)))
    by (cbn [offset reader_of]; lia).
  assert (Hr0 : remaining (reader_of (frames records)) = frames records ++ [])
    by (now rewrite app_nil_r).
  destruct (frames_readable_next MaxBlockSize records Hall
              (reader_of (frames records)) [] eq_refl Ho Hr0)
    as [h' [R [Hr [Hd _]]]].
  exists h'. split; [exact R|].
  destruct (readBlock_short MaxBlockSize h') as [H _].
  - now rewrite Hd.
  - rewrite Hr. unfold WordSize. cbn. lia.
  - now rewrite H, Hr.
Qed.

Lemma readBlocks_reads_archive_witness :
  exists h',
    readBlocks 64 (length [mkBlock 1 [x61]; mkBlock 2 []; mkBlock 3 [x62; x63]])
               (reader_of (frames [mkBlock 1 [x61]; mkBlock 2 []; mkBlock 3 [x62; x63]]))
    = (Ok [mkBlock 1 [x61]; mkBlock 2 []; mkBlock 3 [x62; x63]], h')
    /\ fst (readBlock 64 h') = Err EOF.
Proof.
  apply (readBlocks_reads_archive 64
           [mkBlock 1 [x61]; mkBlock 2 []; mkBlock 3 [x62; x63]]).
  repeat constructor; unfold representable; vm_compute; try discriminate.
Defined.

(** X4.  A frame cut inside its payload is not detected by [readBlock]: the
    short read leaves zeros in the rest of the buffer, and the record comes
    back without error, its missing payload bytes read as zeros. *)
Theorem readBlock_truncated_payload (MaxBlockSize : Z) (b : blockData) (j : nat) :
  readable MaxBlockSize b -> (j < length (Data b))%nat ->
  fst (readBlock MaxBlockSize
         (reader_of (converter.DecToBin (innerSize b) WordSize
                     ++ converter.DecToBin (ID b) WordSize
                     ++ converter.EncodeLength (Z.of_nat (length (Data b)))
                     ++ firstn j (Data b))))
  = Ok (Some (mkBlock (ID b)
                      (firstn j (Data b) ++ repeat x00 (length (Data b) - j)))).
Proof.
  intros [Hid [Hsz Hmax]] Hj.
  pose proof (innerSize_pos b) as Hpos.
  set (b' := mkBlock (ID b) (firstn j (Data b) ++ repeat x00 (length (Data b) - j))).
  assert (Hlen' : length (Data b') = length (Data b)).
  { cbn [b' Data]. rewrite length_app, length_firstn, repeat_length. lia. }
  assert (Hinner : innerSize b' = innerSize b).
  { rewrite !innerSize_eq, Hlen'. reflexivity. }
  set (rest := converter.DecToBin (ID b) WordSize
               ++ converter.EncodeLength (Z.of_nat (length (Data b)))
               ++ firstn j (Data b)).
  assert (Hrest : length rest
                  = (WordSize + S (converter.byteLen (Z.of_nat (length (Data b)))) + j)%nat).
  { subst rest. rewrite !length_app, DecToBin_length, EncodeLength_length,
      length_firstn. lia. }
  assert (Hn : Z.to_nat (innerSize b + Z.of_nat WordSize)
               = (length rest + (length (Data b) - j + WordSize))%nat).
  { rewrite innerSize_eq, Hrest. lia. }
  assert (Hpad : padded (Z.to_nat (innerSize b + Z.of_nat WordSize)) rest
                 = frameBody b' ++ repeat x00 WordSize).
  { unfold padded. rewrite firstn_all2 by lia.
    rewrite Hn, Nat.add_comm, Nat.add_sub, repeat_app.
    unfold frameBody, converter.EncodeLengthPlusData. rewrite Hlen'.
    subst rest. cbn [b' ID Data]. now rewrite <- !app_assoc. }
  assert (Ho : 0 <= offset (reader_of (converter.DecToBin (innerSize b) WordSize ++ rest)))
    by (cbn [offset reader_of]; lia).
  rewrite (readBlock_after_size MaxBlockSize
             (reader_of (converter.DecToBin (innerSize b) WordSize ++ rest))
             (innerSize b) rest eq_refl Ho eq_refl);
    try assumption; try lia.
  - rewrite Hpad, unmarshalBlockData_frameBody; [reflexivity | exact Hid |].
    now rewrite Hinner.
  - intros H. rewrite H in Hrest. cbn in Hrest. lia.
Qed.

Lemma readBlock_truncated_payload_witness :
  fst (readBlock 64
         (reader_of (converter.DecToBin (innerSize (mkBlock 7 [x61; x62; x63])) WordSize
                     ++ converter.DecToBin 7 WordSize
                     ++ converter.EncodeLength 3
                     ++ [x61])))
  = Ok (Some (mkBlock 7 [x61; x00; x00])).
Proof.
  apply (readBlock_truncated_payload 64 (mkBlock 7 [x61; x62; x63]) 1).
  - unfold readable, representable. vm_compute. repeat split; try discriminate.
  - cbn. lia.
Defined.

(** X5.  [unmarshalBlockData] rejects a buffer whose length prefix announces
    more payload bytes than the buffer holds, for every announced length that
    an [int64] holds: the answer is "bad length". *)
Theorem unmarshalBlockData_bad_length (idField rest : list byte) (n : Z) :
  length idField = WordSize ->
  n < 2 ^ 63 ->
  Z.of_nat (length rest) < n ->
  unmarshalBlockData (idField ++ converter.EncodeLength n ++ rest) = Err ErrBadLength.
Proof.
  intros Hid Hint Hn.
  assert (Hk : (converter.byteLen n < 256)%nat).
  { unfold converter.byteLen. destruct (Z.leb_spec n 0) as [|Hpos]; [lia|].
    assert (Hl : Z.log2 n < 63) by (apply Z.log2_lt_pow2; lia).
    pose proof (Z.log2_nonneg n) as Hl0.
    assert (Z.log2 n / 8 < 8) by (apply Z.div_lt_upper_bound; lia).
    assert (0 <= Z.log2 n / 8) by (apply Z.div_pos; lia).
    lia. }
  unfold unmarshalBlockData.
  destruct (Nat.ltb_spec (length (idField ++ converter.EncodeLength n ++ rest)) WordSize)
    as [Hlt|_].
  { rewrite length_app in Hlt. lia. }
  rewrite (skipn_exact WordSize idField) by exact Hid.
  rewrite DecodeLength_EncodeLength by lia.
  destruct (Z.gtb_spec n (Z.of_nat (length rest))) as [_|]; [reflexivity | lia].
Qed.

Lemma unmarshalBlockData_bad_length_witness :
  unmarshalBlockData ([x00; x00; x00; x00; x07] ++ converter.EncodeLength 3 ++ [x61; x62])
  = Err ErrBadLength.
Proof.
  apply (unmarshalBlockData_bad_length [x00; x00; x00; x00; x07] [x61; x62] 3).
  - reflexivity.
  - lia.
  - cbn. lia.
Defined.

(** X6.  On an existing archive of one to [WordSize] - 1 bytes the locator
    cannot seek back one word: it returns the seek error and makes no
    buffer. *)
Theorem getLastBlockID_short_file (MaxBlockSize : Z) (c : list byte) :
  c <> [] -> (length c < WordSize)%nat ->
  getLastBlockID_run MaxBlockSize (disk_with c) = (Err ErrSeek, []).
Proof.
  intros Hne Hlt.
  unfold getLastBlockID_run, disk_with. cbn [archive dev open_fails no_faults].
  unfold lastBlockOfFile, open. cbn [dev].
  unfold bind at 1. unfold on_error, Stat. cbn [hdev stat_fails no_faults content].
  destruct (Z.eqb_spec (Z.of_nat (length c)) 0) as [H0|_].
  { destruct c; [contradiction | cbn in H0; lia]. }
  unfold bind at 1. unfold SeekEnd. cbn [hdev seek_fails no_faults content].
  destruct (Z.ltb_spec (Z.of_nat (length c) + - Z.of_nat WordSize) 0) as [_|];
    [reflexivity | lia].
Qed.

Lemma getLastBlockID_short_file_witness :
  getLastBlockID_run 64 (disk_with [x00; x00; x07]) = (Err ErrSeek, []).
Proof.
  apply (getLastBlockID_short_file 64 [x00; x00; x07]).
  - discriminate.
  - unfold WordSize. cbn. lia.
Defined.

(** ** What [readBlock] and the locator can return, on any input *)

Lemma ReadFull_made (n : nat) (h h' : handle) (r : result (list byte)) :
  ReadFull n h = (r, h') -> made h' = made h.
Proof.
  unfold ReadFull. intros H.
  destruct (read_fails (hdev h)); [now inversion H|].
  destruct (n =? 0)%nat; [now inversion H|].
  destruct (length (remaining h) =? 0)%nat; [now inversion H|].
  destruct (length (remaining h) <? n)%nat; now inversion H.
Qed.

Lemma Read_made (n : nat) (h h' : handle) (r : result (list byte)) :
  Read n h = (r, h') ->
  made h' = made h /\ (forall buf, r = Ok buf -> length buf = n).
Proof.
  unfold Read. intros H.
  destruct (read_fails (hdev h)).
  { inversion H; subst. split; [reflexivity | discriminate]. }
  destruct n as [|n].
  { inversion H; subst. split; [reflexivity|]. intros buf E. now inversion E. }
  destruct (remaining h) as [|x l] eqn:E.
  { inversion H; subst. split; [reflexivity | discriminate]. }
  inversion H; subst. split; [reflexivity|].
  intros buf Eb. inversion Eb; subst. apply (padded_length (S n) (x :: l)).
Qed.

Lemma BinToDec_from_bound (bin : list byte) (acc : Z) :
  converter.BinToDec_from acc bin
  < (acc + 1) * 256 ^ Z.of_nat (length bin).
Proof.
  revert acc. induction bin as [|x bin IH]; intros acc.
  - simpl. lia.
  - cbn [converter.BinToDec_from length]. rewrite Nat2Z.inj_succ, Z.pow_succ_r by lia.
    pose proof (IH (acc * 256 + Z_of_byte x)) as H.
    pose proof (Z_of_byte_range x) as Hx.
    assert (Hp : 0 < 256 ^ Z.of_nat (length bin)) by (apply Z.pow_pos_nonneg; lia).
    nia.
Qed.

Lemma BinToDec_word (bin : list byte) :
  (length bin <= WordSize)%nat -> representable (converter.BinToDec bin).
Proof.
  intros Hl. split; [apply BinToDec_nonneg|].
  pose proof (BinToDec_from_bound bin 0) as H. unfold converter.BinToDec.
  assert (256 ^ Z.of_nat (length bin) <= 256 ^ Z.of_nat WordSize)
    by (apply Z.pow_le_mono_r; lia).
  lia.
Qed.

(** What [unmarshalBlockData] returns without error: an id that fits the
    word width, and a payload at least [WordSize] + 1 bytes shorter than the
    buffer. *)
Lemma unmarshalBlockData_ok (buff : list byte) (b : blockData) :
  unmarshalBlockData buff = Ok b ->
  representable (ID b) /\ (WordSize + 1 + length (Data b) <= length buff)%nat.
Proof.
  unfold unmarshalBlockData. intros H.
  destruct (Nat.ltb_spec (length buff) WordSize) as [|Hlen]; [discriminate|].
  destruct (skipn WordSize buff) as [|c rest] eqn:Es; [discriminate H|].
  assert (Hs : length (c :: rest) = (length buff - WordSize)%nat)
    by (rewrite <- Es; apply length_skipn).
  cbn [converter.DecodeLength] in H.
  destruct (length rest <? Z.to_nat (Z_of_byte c))%nat; [discriminate H|].
  set (k := Z.to_nat (Z_of_byte c)) in *.
  destruct (converter.BinToDec (firstn k rest) >? Z.of_nat (length (skipn k rest)));
    [discriminate H|].
  destruct (converter.BinToDec (firstn k rest) <? 0); [discriminate H|].
  injection H as <-. cbn [ID Data]. split.
  - apply (BinToDec_word (firstn WordSize buff)).
    exact (firstn_le_length WordSize buff).
  - pose proof (length_firstn (Z.to_nat (converter.BinToDec (firstn k rest)))
                              (skipn k rest)) as H1.
    pose proof (length_skipn k rest) as H2.
    cbn [length] in Hs. unfold WordSize in *. lia.
Qed.

(** Every way [readBlock] can end: either only the size-field buffer was
    made and no record is returned, or a second buffer of a size within the
    maximum plus [WordSize] was made and a returned record comes from
    [unmarshalBlockData] on a buffer of that size. *)
Lemma readBlock_cases (MaxBlockSize : Z) (h h' : handle)
      (r : result (option blockData)) :
  readBlock MaxBlockSize h = (r, h') ->
  (made h' = made h ++ [Z.of_nat WordSize] /\ forall b, r <> Ok (Some b))
  \/ exists size,
       0 < size <= MaxBlockSize
       /\ made h' = made h ++ [Z.of_nat WordSize; size + Z.of_nat WordSize]
       /\ forall b, r = Ok (Some b) ->
                    exists buff, length buff = Z.to_nat (size + Z.of_nat WordSize)
                                 /\ unmarshalBlockData buff = Ok b.
Proof.
  intros H. unfold readBlock in H. unfold bind at 1 in H. unfold make at 1 in H.
  set (h1 := mkHandle (content h) (offset h) (hdev h) (made h ++ [Z.of_nat WordSize]))
    in H.
  unfold bind at 1 in H.
  destruct (ReadFull WordSize h1) as [r1 h2] eqn:R1.
  apply ReadFull_made in R1. cbn [made h1] in R1.
  destruct r1 as [buf|e| |];
    try (inversion H; subst; left; split; [exact R1 | intros b; discriminate]).
  destruct (Z.gtb_spec (converter.BinToDec buf) MaxBlockSize) as [|Hmax].
  { inversion H; subst. left. split; [exact R1 | intros b; discriminate]. }
  destruct (Z.eqb_spec (converter.BinToDec buf) 0) as [|Hnz].
  { inversion H; subst. left. split; [exact R1 | intros b; discriminate]. }
  pose proof (BinToDec_nonneg buf) as Hnn.
  right. exists (converter.BinToDec buf). split; [lia|].
  unfold bind at 1 in H. unfold make at 1 in H.
  set (h3 := mkHandle (content h2) (offset h2) (hdev h2)
                      (made h2 ++ [converter.BinToDec buf + Z.of_nat WordSize])) in H.
  unfold bind at 1 in H.
  destruct (Read (Z.to_nat (converter.BinToDec buf + Z.of_nat WordSize)) h3)
    as [r3 h4] eqn:R3.
  apply Read_made in R3. destruct R3 as [M3 L3]. cbn [made h3] in M3.
  assert (M4 : made h4
               = made h ++ [Z.of_nat WordSize;
                            converter.BinToDec buf + Z.of_nat WordSize]).
  { rewrite M3, R1, <- app_assoc. reflexivity. }
  destruct r3 as [dataBinary|e| |];
    try (inversion H; subst; split; [exact M4 | intros b; discriminate]).
  unfold bind, lift, ret in H.
  destruct (unmarshalBlockData dataBinary) as [blk|e| |] eqn:U;
    inversion H; subst; (split; [exact M4|]); intros b Eb; try discriminate Eb.
  inversion Eb; subst. exists dataBinary. split; [now apply L3 | exact U].
Qed.

(** X7.  Whatever the reader holds, a record returned by [readBlock] has an
    id that fits the word width and a payload shorter than the configured
    maximum, and every buffer [readBlock] makes has at most the maximum plus
    [WordSize] bytes (given a non-negative maximum). *)
Theorem readBlock_bounded (MaxBlockSize : Z) (h h' : handle)
        (r : result (option blockData)) :
  0 <= MaxBlockSize ->
  readBlock MaxBlockSize h = (r, h') ->
  (forall b, r = Ok (Some b) ->
             representable (ID b) /\ Z.of_nat (length (Data b)) < MaxBlockSize)
  /\ exists extra,
       made h' = made h ++ extra
       /\ Forall (fun n => n <= MaxBlockSize + Z.of_nat WordSize) extra.
Proof.
  intros Hmax H.
  destruct (readBlock_cases MaxBlockSize h h' r H)
    as [[Hm Hno] | [size [Hsize [Hm Hsome]]]].
  - split.
    + intros b Hb. exfalso. exact (Hno b Hb).
    + exists [Z.of_nat WordSize]. split; [exact Hm|]. repeat constructor. lia.
  - split.
    + intros b Hb. destruct (Hsome b Hb) as [buff [Hl Hu]].
      apply unmarshalBlockData_ok in Hu. destruct Hu as [Hid Hd].
      split; [exact Hid | unfold WordSize in *; lia].
    + exists [Z.of_nat WordSize; size + Z.of_nat WordSize].
      split; [exact Hm|]. repeat constructor; lia.
Qed.

Lemma readBlock_bounded_witness :
  (forall b, Ok (Some (mkBlock 7 [x61])) = Ok (Some b) ->
             representable (ID b) /\ Z.of_nat (length (Data b)) < 64)
  /\ exists extra,
       made (snd (readBlock 64 (reader_of (marshallFileBlock (mkBlock 7 [x61])))))
       = made (reader_of (marshallFileBlock (mkBlock 7 [x61]))) ++ extra
       /\ Forall (fun n => n <= 64 + Z.of_nat WordSize) extra.
Proof.
  apply (readBlock_bounded 64 (reader_of (marshallFileBlock (mkBlock 7 [x61])))
           (snd (readBlock 64 (reader_of (marshallFileBlock (mkBlock 7 [x61])))))
           (Ok (Some (mkBlock 7 [x61])))).
  - lia.
  - vm_compute. reflexivity.
Defined.

Lemma SeekEnd_made (off : Z) (h h' : handle) (r : result unit) :
  SeekEnd off h = (r, h') -> made h' = made h.
Proof.
  unfold SeekEnd. intros H.
  destruct (seek_fails (hdev h)); [now inversion H|].
  destruct (Z.of_nat (length (content h)) + off <? 0); now inversion H.
Qed.

(** X8.  Whatever the archive holds and whatever fails, an id returned by
    [getLastBlockID] fits the word width, and every buffer made on the way
    has at most the configured maximum plus [WordSize] bytes (given a
    non-negative maximum). *)
Theorem getLastBlockID_bounded (MaxBlockSize : Z) (d : disk) (r : result Z)
        (buffers : list Z) :
  0 <= MaxBlockSize ->
  getLastBlockID_run MaxBlockSize d = (r, buffers) ->
  (forall id, r = Ok id -> representable id)
  /\ Forall (fun n => n <= MaxBlockSize + Z.of_nat WordSize) buffers.
Proof.
  intros Hmax H. unfold getLastBlockID_run in H.
  assert (Hzero : representable 0) by (unfold representable; simpl; lia).
  destruct (archive d) as [c|].
  2:{ inversion H; subst. split; [|constructor].
      intros id E. now inversion E; subst. }
  destruct (open_fails (dev d)).
  { inversion H; subst. split; [discriminate | constructor]. }
  destruct (lastBlockOfFile MaxBlockSize (open d c)) as [r0 h0] eqn:L.
  inversion H; subst r0 buffers. clear H.
  unfold lastBlockOfFile in L. unfold bind at 1 in L.
  unfold on_error, Stat, open in L. cbn [hdev content] in L.
  destruct (stat_fails (dev d)).
  { inversion L; subst. split; [discriminate | constructor]. }
  destruct (Z.of_nat (length c) =? 0).
  { inversion L; subst. split; [discriminate | constructor]. }
  unfold bind at 1 in L.
  destruct (SeekEnd (- Z.of_nat WordSize) (mkHandle c 0 (dev d) [])) as [r1 h1] eqn:S1.
  apply SeekEnd_made in S1. cbn [made] in S1.
  destruct r1;
    try (inversion L; subst; rewrite S1; split; [discriminate | constructor]).
  unfold bind at 1 in L. unfold make at 1 in L. rewrite S1 in L. cbn [app] in L.
  unfold bind at 1 in L.
  destruct (Read WordSize (mkHandle (content h1) (offset h1) (hdev h1)
                                    [Z.of_nat WordSize])) as [r2 h2] eqn:R2.
  apply Read_made in R2. destruct R2 as [M2 _]. cbn [made] in M2.
  assert (Hw : Forall (fun n => n <= MaxBlockSize + Z.of_nat WordSize)
                      [Z.of_nat WordSize]) by (repeat constructor; lia).
  destruct r2 as [buf|e| |];
    try (inversion L; subst; rewrite M2; split; [discriminate | exact Hw]).
  destruct (converter.BinToDec buf >? MaxBlockSize).
  { inversion L; subst. rewrite M2. split; [discriminate | exact Hw]. }
  unfold bind at 1 in L.
  destruct (SeekEnd (- (converter.BinToDec buf + Z.of_nat WordSize)) h2)
    as [r3 h3] eqn:S3.
  apply SeekEnd_made in S3. rewrite M2 in S3.
  destruct r3;
    try (inversion L; subst; rewrite S3; split; [discriminate | exact Hw]).
  unfold bind in L.
  destruct (readBlock MaxBlockSize h3) as [r4 h4] eqn:R4.
  destruct (readBlock_cases MaxBlockSize h3 h4 r4 R4)
    as [[Hm Hno] | [size [Hsize [Hm Hsome]]]].
  - assert (Hall : Forall (fun n => n <= MaxBlockSize + Z.of_nat WordSize) (made h4)).
    { rewrite Hm, S3. repeat constructor; lia. }
    destruct r4 as [[blk|]| | |]; inversion L; subst;
      (split; [|exact Hall]); try discriminate.
    exfalso. exact (Hno blk eq_refl).
  - assert (Hall : Forall (fun n => n <= MaxBlockSize + Z.of_nat WordSize) (made h4)).
    { rewrite Hm, S3. repeat constructor; lia. }
    destruct r4 as [[blk|]| | |]; inversion L; subst;
      (split; [|exact Hall]); try discriminate.
    intros id E. inversion E; subst.
    destruct (Hsome blk eq_refl) as [buff [_ Hu]].
    apply unmarshalBlockData_ok in Hu. apply Hu.
Qed.

Lemma getLastBlockID_bounded_witness :
  (forall id, Ok 2 = Ok id -> representable id)
  /\ Forall (fun n => n <= 64 + Z.of_nat WordSize) [5; 5; 11].
Proof.
  apply (getLastBlockID_bounded 64
           (disk_with (frames [mkBlock 1 [x61]; mkBlock 2 []])) (Ok 2) [5; 5; 11]).
  - lia.
  - vm_compute. reflexivity.
Defined.

(** ** Further properties of the writer *)

Lemma Write_appends (d d' : disk) (buff : list byte) (r : result unit) :
  Write d buff = (r, d') ->
  exists written, bytes_of d' = bytes_of d ++ written
                  /\ (r = Ok tt -> written = buff).
Proof.
  unfold Write, bytes_of. intros H.
  destruct (write_fault (dev d)) as [[[|k] p]|]; inversion H; subst; cbn [archive].
  - exists (firstn p buff). split; [reflexivity | discriminate].
  - exists buff. split; reflexivity.
  - exists buff. split; reflexivity.
Qed.

Lemma writeBlocks_appends (blocks : list blockData) :
  forall (d d' : disk) (r : result unit),
    writeBlocks d blocks = (r, d') ->
    exists written, bytes_of d' = bytes_of d ++ written
                    /\ (r = Ok tt -> written = frames blocks).
Proof.
  induction blocks as [|b blocks IH]; intros d d' r H; cbn [writeBlocks] in H.
  - inversion H; subst. exists []. rewrite app_nil_r. split; reflexivity.
  - destruct (Write d (marshallFileBlock b)) as [r1 d1] eqn:W.
    destruct (Write_appends _ _ _ _ W) as [w1 [Hw1 Hok1]].
    destruct r1 as [[]|e| |].
    + destruct (IH _ _ _ H) as [w2 [Hw2 Hok2]].
      exists (w1 ++ w2). split.
      * now rewrite Hw2, Hw1, app_assoc.
      * intros Hr. rewrite (Hok1 eq_refl), (Hok2 Hr). reflexivity.
    + inversion H; subst. exists w1. split; [exact Hw1 | discriminate].
    + inversion H; subst. exists w1. split; [exact Hw1 | discriminate].
    + inversion H; subst. exists w1. split; [exact Hw1 | discriminate].
Qed.

(** X9.  The writer only appends: whatever the ledger answers and whatever
    fails, the bytes that were in the archive before a run are still its
    first bytes afterwards; and unless the run ends with [Ok] or with a
    write error, the disk is exactly as before. *)
Theorem writeNextBlocks_only_appends (MaxBlockSize : Z) (d d' : disk)
        (db : ledger) (minToSave : Z) (r : result unit) :
  writeNextBlocks MaxBlockSize d db minToSave = (r, d') ->
  (exists written, bytes_of d' = bytes_of d ++ written)
  /\ (r <> Ok tt -> r <> Err ErrWrite -> d' = d).
Proof.
  unfold writeNextBlocks. intros H.
  assert (Hsame : forall r0 : result unit,
             (r0, d) = (r, d') ->
             (exists written, bytes_of d' = bytes_of d ++ written)
             /\ (r <> Ok tt -> r <> Err ErrWrite -> d' = d)).
  { intros r0 E. inversion E; subst. split; [|reflexivity].
    exists []. now rewrite app_nil_r. }
  destruct (getLastBlockID MaxBlockSize d) as [last|e| |]; try (now apply Hsame in H).
  destruct (infoBlock_Get db) as [cur|]; [|now apply Hsame in H].
  destruct (cur - minToSave <? last); [now apply Hsame in H|].
  destruct (GetBlockchain db last (last + minToSave)) as [blocks|];
    [|now apply Hsame in H].
  destruct (open_fails (dev d)); [now apply Hsame in H|].
  destruct (writeBlocks_appends blocks _ _ _ H) as [w [Hw Hok]].
  assert (Hres : fst (writeBlocks (OpenFile d) blocks) = r) by (now rewrite H).
  split.
  - exists w. rewrite Hw. reflexivity.
  - intros Hn1 Hn2. exfalso.
    clear Hw Hok Hsame. revert H Hn1 Hn2. generalize (OpenFile d) as d0.
    clear Hres. revert r d'.
    induction blocks as [|b blocks IH]; intros r d' d0 H Hn1 Hn2;
      cbn [writeBlocks] in H.
    + inversion H; subst. now apply Hn1.
    + unfold Write in H.
      destruct (write_fault (dev d0)) as [[[|k] p]|].
      * inversion H; subst. now apply Hn2.
      * exact (IH _ _ _ H Hn1 Hn2).
      * exact (IH _ _ _ H Hn1 Hn2).
Qed.

Lemma writeNextBlocks_only_appends_witness :
  (exists written,
      bytes_of (disk_with (frames [mkBlock 1 [x61]])) = bytes_of disk_without ++ written)
  /\ (@Ok unit tt <> Ok tt -> @Ok unit tt <> Err ErrWrite ->
      disk_with (frames [mkBlock 1 [x61]]) = disk_without).
Proof.
  apply (writeNextBlocks_only_appends 64 disk_without
           (disk_with (frames [mkBlock 1 [x61]]))
           (mkLedger [[x61]] 1 false false) 1 (Ok tt)).
  vm_compute. reflexivity.
Defined.

(** X10.  A failing write leaves a partial frame behind: when the device
    lets [k] writes through and cuts the next one after [p] bytes, the loop of
    [writeNextBlocks] over more than [k] blocks ends with the write error, and
    the file has grown by the frames of the first [k] blocks followed by the
    first [p] bytes of the next frame. *)
Theorem writeBlocks_partial_write (blocks : list blockData) :
  forall (d : disk) (k p : nat) (next : blockData),
    write_fault (dev d) = Some (k, p) ->
    nth_error blocks k = Some next ->
    fst (writeBlocks d blocks) = Err ErrWrite
    /\ bytes_of (snd (writeBlocks d blocks))
       = bytes_of d ++ frames (firstn k blocks) ++ firstn p (marshallFileBlock next).
Proof.
  induction blocks as [|b blocks IH]; intros d k p next Hw Hk.
  - destruct k; discriminate Hk.
  - cbn [writeBlocks]. unfold Write. rewrite Hw. destruct k as [|k].
    + cbn [nth_error] in Hk. injection Hk as <-.
      cbn [fst snd firstn]. split; reflexivity.
    + cbn [nth_error] in Hk.
      set (d1 := mkDisk (Some (match archive d with Some c => c | None => [] end
                               ++ marshallFileBlock b))
                        (mkFaults (open_fails (dev d)) (stat_fails (dev d))
                                  (seek_fails (dev d)) (read_fails (dev d))
                                  (Some (k, p)))).
      destruct (IH d1 k p next eq_refl Hk) as [H1 H2].
      split; [exact H1|]. rewrite H2.
      cbn [firstn]. rewrite frames_cons. unfold bytes_of at 1. cbn [archive d1].
      unfold bytes_of. now rewrite <- !app_assoc.
Qed.

Lemma writeBlocks_partial_write_witness :
  fst (writeBlocks (mkDisk (Some [x2a]) (mkFaults false false false false (Some (1%nat, 3%nat))))
                   [mkBlock 1 [x61]; mkBlock 2 [x62]; mkBlock 3 []])
  = Err ErrWrite
  /\ bytes_of (snd (writeBlocks
                      (mkDisk (Some [x2a])
                              (mkFaults false false false false (Some (1%nat, 3%nat))))
                      [mkBlock 1 [x61]; mkBlock 2 [x62]; mkBlock 3 []]))
     = bytes_of (mkDisk (Some [x2a])
                        (mkFaults false false false false (Some (1%nat, 3%nat))))
       ++ frames (firstn 1 [mkBlock 1 [x61]; mkBlock 2 [x62]; mkBlock 3 []])
       ++ firstn 3 (marshallFileBlock (mkBlock 2 [x62])).
Proof.
  apply (writeBlocks_partial_write [mkBlock 1 [x61]; mkBlock 2 [x62]; mkBlock 3 []]
           (mkDisk (Some [x2a]) (mkFaults false false false false (Some (1%nat, 3%nat))))
           1 3 (mkBlock 2 [x62])); reflexivity.
Defined.



(** X12.  Distinct records have distinct frames: two records whose ids and
    body lengths fit the word width and whose frames are equal are equal. *)
Theorem marshallFileBlock_injective (b1 b2 : blockData) :
  representable (ID b1) -> representable (innerSize b1) ->
  representable (ID b2) -> representable (innerSize b2) ->
  marshallFileBlock b1 = marshallFileBlock b2 -> b1 = b2.
Proof.
  intros Hid1 Hsz1 Hid2 Hsz2 H.
  assert (U1 : unmarshalBlockData (skipn WordSize (marshallFileBlock b1)) = Ok b1).
  { rewrite marshallFileBlock_layout, skipn_exact by apply DecToBin_length.
    now apply unmarshalBlockData_frameBody. }
  assert (U2 : unmarshalBlockData (skipn WordSize (marshallFileBlock b2)) = Ok b2).
  { rewrite marshallFileBlock_layout, skipn_exact by apply DecToBin_length.
    now apply unmarshalBlockData_frameBody. }
  rewrite H, U2 in U1. now injection U1.
Qed.

Lemma marshallFileBlock_injective_witness : mkBlock 7 [x61] = mkBlock 7 [x61].
Proof.
  apply (marshallFileBlock_injective (mkBlock 7 [x61]) (mkBlock 7 [x61]));
    try reflexivity; unfold representable; vm_compute; split; try discriminate;
    reflexivity.
Defined.

(** ** The batch, in general *)

Lemma filter_numbered_range (payloads : list (list byte)) (lo hi : Z) :
  0 <= lo ->
  filter (fun b => (lo <? ID b) && (ID b <=? hi)) (numbered 1 payloads)
  = numbered (lo + 1) (firstn (Z.to_nat (hi - lo)) (skipn (Z.to_nat lo) payloads)).
Proof.
  intros Hlo.
  set (l1 := firstn (Z.to_nat lo) payloads).
  set (l2 := firstn (Z.to_nat (hi - lo)) (skipn (Z.to_nat lo) payloads)).
  set (l3 := skipn (Z.to_nat (hi - lo)) (skipn (Z.to_nat lo) payloads)).
  assert (Hsplit : payloads = l1 ++ l2 ++ l3).
  { subst l1 l2 l3. now rewrite !firstn_skipn. }
  assert (Hl1 : length l1 = Nat.min (Z.to_nat lo) (length payloads))
    by (subst l1; apply length_firstn).
  assert (Hl2 : length l2
                = Nat.min (Z.to_nat (hi - lo)) (length payloads - Z.to_nat lo))
    by (subst l2; rewrite length_firstn, length_skipn; reflexivity).
  assert (Hl3 : length l3 = (length payloads - Z.to_nat lo - Z.to_nat (hi - lo))%nat)
    by (subst l3; rewrite !length_skipn; reflexivity).
  rewrite Hsplit at 1. rewrite !numbered_app, !filter_app.
  rewrite (filter_none _ (numbered 1 l1)),
    (filter_all _ (numbered (1 + Z.of_nat (length l1)) l2)),
    (filter_none _ (numbered (1 + Z.of_nat (length l1) + Z.of_nat (length l2)) l3)).
  - rewrite app_nil_r. cbn [app]. destruct l2 as [|p l2'] eqn:E; [reflexivity|].
    f_equal. cbn [length] in Hl2. lia.
  - eapply Forall_impl; [|apply numbered_ids]. intros b Hb. cbv beta in *.
    apply andb_false_iff.
    destruct (Z.leb_spec (ID b) hi); [left | now right].
    apply Z.ltb_ge. lia.
  - eapply Forall_impl; [|apply numbered_ids]. intros b Hb. cbv beta in *.
    apply andb_true_iff. split; [apply Z.ltb_lt | apply Z.leb_le]; lia.
  - eapply Forall_impl; [|apply numbered_ids]. intros b Hb. cbv beta in *.
    apply andb_false_iff. left. apply Z.ltb_ge. lia.
Qed.

(** X13.  The batch of one run: with the frame of a record the locator can
    find as the last frame of the archive, a ledger that answers, and the
    chain height at least the batch size above the last archived id (equality
    included), [writeNextBlocks] appends the frames of the ledger blocks that
    follow the last archived id, at most [minToSave] of them, numbered
    consecutively from that id plus one, and nothing else. *)
Theorem writeNextBlocks_batch (MaxBlockSize : Z) (pre : list byte)
        (saved : blockData) (db : ledger) (minToSave : Z) :
  fits MaxBlockSize saved ->
  info_fails db = false -> query_fails db = false ->
  ID saved <= BlockID db - minToSave ->
  writeNextBlocks MaxBlockSize (disk_with (pre ++ marshallFileBlock saved)) db minToSave
  = (Ok tt,
     disk_with ((pre ++ marshallFileBlock saved)
                ++ frames (numbered (ID saved + 1)
                             (firstn (Z.to_nat minToSave)
                                     (skipn (Z.to_nat (ID saved)) (chain db)))))).
Proof.
  intros [Hid [Hsz Hmax]] Hi Hq Hth.
  pose proof (getLastBlockID_last_frame MaxBlockSize pre saved Hid Hsz Hmax) as Hlast.
  rewrite (writeNextBlocks_run MaxBlockSize (disk_with (pre ++ marshallFileBlock saved))
             db minToSave (ID saved) eq_refl Hlast Hi Hq).
  destruct (Z.ltb_spec (BlockID db - minToSave) (ID saved)) as [|_]; [lia|].
  rewrite filter_numbered_range by apply Hid.
  replace (ID saved + minToSave - ID saved) with minToSave by lia.
  reflexivity.
Qed.

Lemma writeNextBlocks_batch_witness :
  writeNextBlocks 64 (disk_with ([] ++ marshallFileBlock (mkBlock 1 [x61])))
                  (mkLedger [[x61]; [x62]; [x63]; [x64]] 3 false false) 2
  = (Ok tt,
     disk_with (([] ++ marshallFileBlock (mkBlock 1 [x61]))
                ++ frames (numbered (ID (mkBlock 1 [x61]) + 1)
                             (firstn (Z.to_nat 2)
                                     (skipn (Z.to_nat (ID (mkBlock 1 [x61])))
                                            (chain (mkLedger [[x61]; [x62]; [x63]; [x64]]
                                                             3 false false))))))).
Proof.
  apply (writeNextBlocks_batch 64 [] (mkBlock 1 [x61])
           (mkLedger [[x61]; [x62]; [x63]; [x64]] 3 false false) 2).
  - unfold fits, representable. vm_compute. repeat split; try discriminate.
  - reflexivity.
  - reflexivity.
  - cbn. lia.
Defined.

(** ** The archive stays a prefix of the ledger *)

Lemma firstn_plus {A : Type} (k j : nat) (l : list A) :
  firstn (k + j) l = firstn k l ++ firstn j (skipn k l).
Proof.
  revert l. induction k as [|k IH]; intros l; [reflexivity|].
  destruct l as [|x l]; cbn [Nat.add firstn skipn app].
  - now rewrite firstn_nil.
  - now rewrite IH.
Qed.

Lemma firstn_own_length {A : Type} (m : nat) (l : list A) :
  firstn (length (firstn m l)) l = firstn m l.
Proof.
  rewrite <- (firstn_all (firstn m l)) at 2.
  rewrite firstn_firstn. f_equal.
  pose proof (firstn_le_length m l). lia.
Qed.

Lemma lastID_numbered (payloads : list (list byte)) (first : Z) :
  lastID (first - 1) (numbered first payloads)
  = first - 1 + Z.of_nat (length payloads).
Proof.
  revert first. induction payloads as [|p l IH]; intros first;
    cbn [numbered lastID length ID].
  - lia.
  - replace first with (first + 1 - 1) at 1 by lia. rewrite IH. lia.
Qed.

Lemma lastID_ledger_prefix (db : ledger) (k : nat) :
  (k <= length (chain db))%nat -> lastID 0 (ledger_prefix db k) = Z.of_nat k.
Proof.
  intros Hk. unfold ledger_prefix.
  change 0 with (1 - 1). rewrite lastID_numbered, length_firstn. lia.
Qed.

Lemma ledger_prefix_fits (MaxBlockSize : Z) (db : ledger) (k : nat) :
  Forall (fits MaxBlockSize) (numbered 1 (chain db)) ->
  Forall (fits MaxBlockSize) (ledger_prefix db k).
Proof.
  intros H. unfold ledger_prefix.
  rewrite <- (firstn_skipn k (chain db)), numbered_app in H.
  now apply Forall_app in H.
Qed.

(** The locator on a well-formed archive with at least one record. *)
Lemma getLastBlockID_of_archived (MaxBlockSize : Z) (d : disk)
      (records : list blockData) :
  archived d records -> records <> [] -> Forall (fits MaxBlockSize) records ->
  getLastBlockID MaxBlockSize d = Ok (lastID 0 records).
Proof.
  intros [Hdev Harch] Hne Hfits.
  destruct d as [a f]. cbn [dev archive] in *. subst f.
  destruct a as [c|]; [|contradiction].
  subst c. destruct records as [|r0 records'] using rev_ind; [contradiction|].
  clear IHrecords'. apply Forall_app in Hfits. destruct Hfits as [_ Hr].
  inversion Hr as [|? ? [Hid [Hsz Hmax]] _]; subst.
  rewrite frames_snoc, lastID_snoc.
  now apply (getLastBlockID_last_frame MaxBlockSize (frames records') r0).
Qed.

(** X14.  The archive stays a prefix of the ledger: if it holds the frames
    of the first [k] ledger blocks, in order, and the locator can find every
    ledger block again, then after a completed run it holds the frames of the
    first [k'] ledger blocks for some [k'] from [k] to [k + minToSave] (no
    gap, no duplicate, no block out of order), and when [k'] is not zero the
    locator answers [k'] on it.  Below the threshold [k'] is [k] and the disk
    is untouched; otherwise [k'] is [k + minToSave], or the length of the
    ledger when that is less. *)
Theorem writeNextBlocks_keeps_ledger_prefix (MaxBlockSize : Z) (d d' : disk)
        (db : ledger) (minToSave : Z) (k : nat) :
  (k <= length (chain db))%nat ->
  archived d (ledger_prefix db k) ->
  Forall (fits MaxBlockSize) (numbered 1 (chain db)) ->
  writeNextBlocks MaxBlockSize d db minToSave = (Ok tt, d') ->
  exists k',
    (k <= k' <= length (chain db))%nat
    /\ (k' <= k + Z.to_nat minToSave)%nat
    /\ archived d' (ledger_prefix db k')
    /\ ((0 < k')%nat -> getLastBlockID MaxBlockSize d' = Ok (Z.of_nat k'))
    /\ (BlockID db - minToSave < Z.of_nat k -> k' = k /\ d' = d)
    /\ (Z.of_nat k <= BlockID db - minToSave ->
        k' = Nat.min (k + Z.to_nat minToSave) (length (chain db))).
Proof.
  intros Hk Harch Hdb Hrun.
  pose proof (ledger_prefix_fits MaxBlockSize db k Hdb) as Hfits.
  assert (Hinc : increasing 0 (ledger_prefix db k))
    by (apply (increasing_numbered (firstn k (chain db)) 1)).
  destruct (writeNextBlocks_archived _ _ _ _ _ _ Harch Hinc Hfits Hrun)
    as [batch [Harch' [_ [_ [Hno Hyes]]]]].
  rewrite (lastID_ledger_prefix db k Hk) in Hno, Hyes.
  assert (Hloc : forall k', (k' <= length (chain db))%nat ->
                   archived d' (ledger_prefix db k') -> (0 < k')%nat ->
                   getLastBlockID MaxBlockSize d' = Ok (Z.of_nat k')).
  { intros k' Hk' Ha Hpos. rewrite <- (lastID_ledger_prefix db k' Hk').
    apply getLastBlockID_of_archived;
      [exact Ha | | apply ledger_prefix_fits; exact Hdb].
    intros E. apply (f_equal (@length blockData)) in E.
    unfold ledger_prefix in E.
    rewrite <- (length_map ID), (numbered_map_ID _ 1), length_map, length_seq,
      length_firstn in E.
    cbn [length] in E. lia. }
  destruct (Z.lt_ge_cases (BlockID db - minToSave) (Z.of_nat k)) as [Hlt|Hge].
  - destruct (Hno Hlt) as [-> Hd]. rewrite app_nil_r in Harch'.
    exists k.
    split; [lia | split; [lia | split; [exact Harch' | split; [now apply Hloc|]]]].
    split; [intros _; split; [reflexivity | exact Hd] | lia].
  - specialize (Hyes Hge). unfold GetBlockchain in Hyes.
    destruct (query_fails db); [discriminate Hyes|]. injection Hyes as Hb.
    rewrite filter_numbered_range in Hb by lia.
    replace (Z.of_nat k + minToSave - Z.of_nat k) with minToSave in Hb by lia.
    rewrite Nat2Z.id in Hb.
    set (l2 := firstn (Z.to_nat minToSave) (skipn k (chain db))) in *.
    assert (Hl2 : length l2
                  = Nat.min (Z.to_nat minToSave) (length (chain db) - k)).
    { subst l2. now rewrite length_firstn, length_skipn. }
    assert (Hpre : ledger_prefix db k ++ batch = ledger_prefix db (k + length l2)).
    { subst batch. unfold ledger_prefix.
      rewrite firstn_plus, numbered_app, length_firstn.
      replace (1 + Z.of_nat (Nat.min k (length (chain db)))) with (Z.of_nat k + 1)
        by lia.
      do 2 f_equal. subst l2. symmetry. apply firstn_own_length. }
    rewrite Hpre in Harch'.
    exists (k + length l2)%nat.
    split; [lia | split; [lia | split; [exact Harch' | split]]].
    + apply Hloc; [lia | exact Harch'].
    + split; [lia | intros _; lia].
Qed.

Lemma writeNextBlocks_keeps_ledger_prefix_witness :
  exists k',
    (1 <= k' <= length (chain (mkLedger [[x61]; [x62]; [x63]; [x64]] 4 false false)))%nat
    /\ (k' <= 1 + Z.to_nat 2)%nat
    /\ archived (disk_with (frames [mkBlock 1 [x61]; mkBlock 2 [x62]; mkBlock 3 [x63]]))
                (ledger_prefix (mkLedger [[x61]; [x62]; [x63]; [x64]] 4 false false) k')
    /\ ((0 < k')%nat ->
        getLastBlockID 64
          (disk_with (frames [mkBlock 1 [x61]; mkBlock 2 [x62]; mkBlock 3 [x63]]))
        = Ok (Z.of_nat k'))
    /\ (4 - 2 < Z.of_nat 1 ->
        k' = 1%nat
        /\ disk_with (frames [mkBlock 1 [x61]; mkBlock 2 [x62]; mkBlock 3 [x63]])
           = disk_with (frames [mkBlock 1 [x61]]))
    /\ (Z.of_nat 1 <= 4 - 2 ->
        k' = Nat.min (1 + Z.to_nat 2)
                     (length (chain (mkLedger [[x61]; [x62]; [x63]; [x64]] 4 false false)))).
Proof.
  apply (writeNextBlocks_keeps_ledger_prefix 64
           (disk_with (frames [mkBlock 1 [x61]]))
           (disk_with (frames [mkBlock 1 [x61]; mkBlock 2 [x62]; mkBlock 3 [x63]]))
           (mkLedger [[x61]; [x62]; [x63]; [x64]] 4 false false) 2 1).
  - cbn. lia.
  - split; reflexivity.
  - repeat constructor; unfold representable; vm_compute;
      try discriminate; reflexivity.
  - vm_compute. reflexivity.
Defined.


(** ** The locator reads the end of the file only *)

Lemma same_view_advance (h1 h2 : handle) (n : nat) :
  same_view h1 h2 -> same_view (advance h1 n) (advance h2 n).
Proof.
  intros [Hd [Hr [H1 H2]]]. unfold same_view.
  rewrite !remaining_advance by assumption. rewrite Hr.
  unfold advance. cbn [hdev offset]. repeat split; try assumption; lia.
Qed.

Lemma local_ret {A : Type} (v : A) : local (ret v).
Proof. intros h1 h2 H. split; [reflexivity | exact H]. Qed.

Lemma local_fail {A : Type} (e : error) : local (@fail A e).
Proof. intros h1 h2 H. split; [reflexivity | exact H]. Qed.

Lemma local_panic {A : Type} : local (@panic A).
Proof. intros h1 h2 H. split; [reflexivity | exact H]. Qed.

Lemma local_lift {A : Type} (r : result A) : local (lift r).
Proof. intros h1 h2 H. split; [reflexivity | exact H]. Qed.

Lemma local_make (n : Z) : local (make n).
Proof. intros h1 h2 H. split; [reflexivity | exact H]. Qed.

Lemma local_bind {A B : Type} (m : M A) (f : A -> M B) :
  local m -> (forall v, local (f v)) -> local (bind m f).
Proof.
  intros Hm Hf h1 h2 H. unfold bind.
  destruct (Hm h1 h2 H) as [E S].
  destruct (m h1) as [r1 h1'], (m h2) as [r2 h2']. cbn [fst snd] in E, S. subst r2.
  destruct r1 as [v|e| |]; try (split; [reflexivity | exact S]).
  now apply Hf.
Qed.

Lemma local_ReadFull (n : nat) : local (ReadFull n).
Proof.
  intros h1 h2 H. pose proof H as [Hd [Hr [H1 H2]]]. unfold ReadFull.
  rewrite <- Hd, <- Hr.
  destruct (read_fails (hdev h1)); [split; [reflexivity | exact H]|].
  destruct (n =? 0)%nat; [split; [reflexivity | exact H]|].
  destruct (length (remaining h1) =? 0)%nat; [split; [reflexivity | exact H]|].
  destruct (length (remaining h1) <? n)%nat;
    (split; [reflexivity | now apply same_view_advance]).
Qed.

Lemma local_Read (n : nat) : local (Read n).
Proof.
  intros h1 h2 H. pose proof H as [Hd [Hr [H1 H2]]]. unfold Read.
  rewrite <- Hd, <- Hr.
  destruct (read_fails (hdev h1)); [split; [reflexivity | exact H]|].
  destruct n as [|n]; [split; [reflexivity | exact H]|].
  destruct (remaining h1) as [|x l]; [split; [reflexivity | exact H]|].
  split; [reflexivity | now apply same_view_advance].
Qed.

Lemma local_readBlock (MaxBlockSize : Z) : local (readBlock MaxBlockSize).
Proof.
  unfold readBlock.
  apply local_bind; [apply local_make | intros _].
  apply local_bind; [apply local_ReadFull | intros buf].
  destruct (converter.BinToDec buf >? MaxBlockSize); [apply local_fail|].
  destruct (converter.BinToDec buf =? 0); [apply local_ret|].
  apply local_bind; [apply local_make | intros _].
  apply local_bind; [apply local_Read | intros dataBinary].
  apply local_bind; [apply local_lift | intros block]. apply local_ret.
Qed.

Lemma trailingField_prepend (pre c : list byte) :
  (WordSize <= length c)%nat -> trailingField (pre ++ c) = trailingField c.
Proof.
  intros Hc. unfold trailingField. rewrite length_app.
  replace (length pre + length c - WordSize)%nat
    with ((length c - WordSize) + length pre)%nat by lia.
  rewrite <- skipn_skipn.
  f_equal. apply (skipn_exact (length pre) pre c eq_refl).
Qed.

(** X15.  The locator reads the end of the file only: when the last
    [WordSize] bytes of [c] announce a size whose frame lies within [c], any
    bytes put in front of [c] leave the answer of [getLastBlockID]
    unchanged. *)
Theorem getLastBlockID_reads_only_the_tail (MaxBlockSize : Z) (pre c : list byte) :
  (WordSize <= length c)%nat ->
  converter.BinToDec (trailingField c) + Z.of_nat WordSize <= Z.of_nat (length c) ->
  getLastBlockID MaxBlockSize (disk_with (pre ++ c))
  = getLastBlockID MaxBlockSize (disk_with c).
Proof.
  intros Hc Hin. unfold getLastBlockID.
  rewrite !getLastBlockID_run_steps by (try rewrite length_app; lia).
  cbv zeta. rewrite trailingField_prepend by exact Hc.
  set (size := converter.BinToDec (trailingField c)) in *.
  destruct (size >? MaxBlockSize); [reflexivity|].
  destruct (Z.ltb_spec (Z.of_nat (length (pre ++ c)) - (size + Z.of_nat WordSize)) 0)
    as [Hneg|_]; [rewrite length_app in Hneg; lia|].
  destruct (Z.ltb_spec (Z.of_nat (length c) - (size + Z.of_nat WordSize)) 0)
    as [Hneg|_]; [lia|].
  set (k := block <- readBlock MaxBlockSize ;;
            match block with
            | None => panic
            | Some b => ret (ID b)
            end).
  assert (Hk : local k).
  { subst k. apply local_bind; [apply local_readBlock|].
    intros [b|]; [apply local_ret | apply local_panic]. }
  set (h1 := mkHandle (pre ++ c)
                      (Z.of_nat (length (pre ++ c)) - (size + Z.of_nat WordSize))
                      no_faults [Z.of_nat WordSize]).
  set (h2 := mkHandle c (Z.of_nat (length c) - (size + Z.of_nat WordSize))
                      no_faults [Z.of_nat WordSize]).
  assert (Hv : same_view h1 h2).
  { unfold same_view, remaining. cbn [hdev content offset h1 h2].
    pose proof (BinToDec_nonneg (trailingField c)). fold size in H.
    rewrite length_app in *. repeat split; try lia.
    replace (Z.to_nat (Z.of_nat (length pre + length c) - (size + Z.of_nat WordSize)))
      with (Z.to_nat (Z.of_nat (length c) - (size + Z.of_nat WordSize)) + length pre)%nat
      by lia.
    rewrite <- skipn_skipn. f_equal. apply (skipn_exact (length pre) pre c eq_refl). }
  destruct (Hk h1 h2 Hv) as [E _].
  destruct (k h1) as [r1 h1'], (k h2) as [r2 h2']. exact E.
Qed.

Lemma getLastBlockID_reads_only_the_tail_witness :
  getLastBlockID 64 (disk_with ([x2a; x2b] ++ marshallFileBlock (mkBlock 7 [x61])))
  = getLastBlockID 64 (disk_with (marshallFileBlock (mkBlock 7 [x61]))).
Proof.
  apply (getLastBlockID_reads_only_the_tail 64 [x2a; x2b]
           (marshallFileBlock (mkBlock 7 [x61]))).
  - unfold WordSize. vm_compute. lia.
  - vm_compute. discriminate.
Defined.
